(** * GST-based dynamic pricing simulator: pricing engine and session ledger

    A shallow embedding of the Streamlit script [8.py].  The script is a
    straight-line program: it reads widget values, computes a price
    breakdown with Python [float] arithmetic and, when the save button is
    pressed, appends a summary row to [st.session_state.history].

    Python's [float] is IEEE 754 binary64 with round-to-nearest-even, so the
    arithmetic is modelled with the executable specification of binary
    floating point of the standard library ([SpecFloat], precision 53,
    exponent bound 1024).  Python's [int] is [Z]. *)

From Stdlib Require Import ZArith QArith Qabs Bool List String Lia SpecFloat.
Import ListNotations.

Local Open Scope Z_scope.

(** ** Rounding an integer quotient

    [round_half_even_shift N k] is [N / 2^k] rounded to the nearest
    integer, ties to the even one.  It is the rounding of binary64
    arithmetic and, on hundredths, of [round(x, 2)]. *)
Definition round_half_even_shift (N : Z) (k : Z) : Z :=
  let q := Z.shiftr N k in
  let r := N - Z.shiftl q k in
  match Z.compare (2 * r) (Z.shiftl 1 k) with
  | Lt => q
  | Gt => q + 1
  | Eq => if Z.even q then q else q + 1
  end.

(** ** Binary64 arithmetic *)

Definition float : Type := spec_float.

Module B64.

Definition prec : Z := 53.
Definition emax : Z := 1024.

Definition add : float -> float -> float := SFadd prec emax.
Definition sub : float -> float -> float := SFsub prec emax.
Definition mul : float -> float -> float := SFmul prec emax.
Definition div : float -> float -> float := SFdiv prec emax.

Definition ltb : float -> float -> bool := SFltb.
Definition leb : float -> float -> bool := SFleb.
Definition eqb : float -> float -> bool := SFeqb.

Definition valid : float -> bool := valid_binary prec emax.

Definition pzero : float := S754_zero false.

(** Neither an infinity nor a NaN. *)
Definition is_finite (x : float) : bool :=
  match x with
  | S754_zero _ | S754_finite _ _ _ => true
  | S754_infinity _ | S754_nan => false
  end.

Definition is_nan (x : float) : bool :=
  match x with
  | S754_nan => true
  | _ => false
  end.

Definition is_zero (x : float) : bool :=
  match x with
  | S754_zero _ => true
  | _ => false
  end.

(** [float(n)] for a Python integer: the nearest binary64 value, exact
    whenever [|n| < 2^53]. *)
Definition of_int (n : Z) : float := binary_normalize prec emax n 0 false.

(** The decimal literal [n * 10^-k], for instance [lit 15 2] for [0.15]:
    the binary64 value nearest to the decimal fraction.  Both [n] and
    [10^k] are exact as floats for the literals of the script, so the
    correctly rounded quotient is that nearest value. *)
Definition lit (n : Z) (k : nat) : float :=
  div (of_int n) (of_int (10 ^ Z.of_nat k)).

(** The rational number a finite float stands for (0 for the others). *)
Definition to_Q (x : float) : Q :=
  match x with
  | S754_finite s m e =>
      let v := (inject_Z (Zpos m) * Qpower 2 e)%Q in
      if s then Qopp v else v
  | _ => 0%Q
  end.

(** [|x - q| <= tol], decided on rationals. *)
Definition within (tol : Q) (x : float) (q : Q) : bool :=
  is_finite x && Qle_bool (Qabs (to_Q x - q)) tol.

(** *** Vocabulary for reasoning about the rounding

    The comparison of two nonnegative binary64 numbers is the comparison
    of their bit patterns, read as integers.  [ord] is that integer:
    [0] for zero, [(e + 1074) * 2^52 + m] for [m * 2^e] and
    [2047 * 2^52] for the infinity. *)
Definition key (c m : Z) : Z := (c + 1074) * 2 ^ 52 + m.
Definition ord_inf : Z := 2047 * 2 ^ 52.
Definition ord (x : float) : Z :=
  match x with
  | S754_zero _ => 0
  | S754_finite _ m e => key e (Zpos m)
  | S754_infinity _ => ord_inf
  | S754_nan => ord_inf + 1
  end.

Definition has_sign (s : bool) (x : float) : Prop :=
  match x with
  | S754_zero s' | S754_infinity s' | S754_finite s' _ _ => s' = s
  | S754_nan => False
  end.

(** [+0], a positive number or [+inf]. *)
Definition nonneg (x : float) : bool :=
  match x with
  | S754_zero false | S754_infinity false | S754_finite false _ _ => true
  | _ => false
  end.

Definition good (x : float) : bool := nonneg x && valid_binary prec emax x.

(** A well-formed positive number. *)
Definition pos_finite (x : float) : bool :=
  match x with
  | S754_finite false _ _ => valid_binary prec emax x
  | _ => false
  end.

(** The exponent the format gives to the number [M * 2^E]. *)
Definition cexp (M E : Z) : Z := fexp prec emax (Zdigits2 M + E).

Definition rne (M n : Z) : Z := round_half_even_shift M n.

(** The bit pattern of [M * 2^E] once rounded, overflow apart. *)
Definition rkey (M E : Z) : Z := key (cexp M E) (rne M (cexp M E - E)).

(** Where a remainder [r] of a division by [p] lies in its interval. *)
Definition loc_rem (r p : Z) : location :=
  if r =? 0 then loc_Exact else loc_Inexact (2 * r ?= p).

(** What a shift record holds after [n] right shifts of [M]. *)
Definition shr_inv (M n : Z) (mrs : shr_record) : Prop :=
  shr_m mrs = M / 2 ^ n /\
  loc_of_shr_record mrs = loc_rem (M mod 2 ^ n) (2 ^ n).

(** [M1 * 2^E1 <= M2 * 2^E2]. *)
Definition dyadic_le (M1 E1 M2 E2 : Z) : Prop :=
  M1 * 2 ^ (E1 - Z.min E1 E2) <= M2 * 2 ^ (E2 - Z.min E1 E2).

(** The smallest positive number, [2^-1074], and one half. *)
Definition min_float : float := S754_finite false 1 (-1074).
Definition half : float := S754_finite false 4503599627370496 (-53).

End B64.

(** ** Python values and exceptions *)

(** The two numeric types the script mixes: [1] and [0] are [int]
    objects, everything computed with [/] or a literal with a decimal
    point is a [float]. *)
Inductive pynum : Type :=
  | PyInt (n : Z)
  | PyFloat (x : float).

(** Implicit conversion of an operand of mixed arithmetic. *)
Definition to_float (v : pynum) : float :=
  match v with
  | PyInt n => B64.of_int n
  | PyFloat x => x
  end.

Inductive exn : Type :=
  | KeyError (key : string)
  | ZeroDivisionError.

Inductive result (A : Type) : Type :=
  | Ok (a : A)
  | Raise (e : exn).

Arguments Ok {A} a.
Arguments Raise {A} e.

Definition bind {A B : Type} (r : result A) (k : A -> result B) : result B :=
  match r with
  | Ok a => k a
  | Raise e => Raise e
  end.

Notation "x <- r ;; k" := (bind r (fun x => k))
  (at level 61, r at next level, right associativity).

(** [a / b] on two [int]s: true division, a [float].  The operands of the
    script are a slider value and the constant [100]. *)
Definition int_truediv (a b : Z) : result float :=
  if b =? 0 then Raise ZeroDivisionError
  else Ok (B64.div (B64.of_int a) (B64.of_int b)).

(** [x / y] on floats raises on a zero divisor instead of returning an
    infinity. *)
Definition float_truediv (x y : float) : result float :=
  if B64.is_zero y then Raise ZeroDivisionError
  else Ok (B64.div x y).

(** *** [round(x, 2)]

    For a finite float CPython prints the exact binary value to two
    decimals, rounding half to even, and reads the decimal back.  With
    [|x| = m * 2^e] the printed number is [n / 100] where [n] is
    [m * 100 * 2^e] rounded half-even to an integer. *)

Definition hundredths (m : positive) (e : Z) : Z :=
  if 0 <=? e then Z.shiftl (Zpos m * 100) e
  else round_half_even_shift (Zpos m * 100) (- e).

Definition float_round2 (x : float) : float :=
  match x with
  | S754_finite s m e =>
      match hundredths m e with
      | Zpos n => B64.div (S754_finite s n 0) (S754_finite false 100 0)
      | _ => S754_zero s
      end
  | _ => x
  end.

(** [round(v, 2)]: an [int] is returned unchanged. *)
Definition round2 (v : pynum) : pynum :=
  match v with
  | PyInt n => PyInt n
  | PyFloat x => PyFloat (float_round2 x)
  end.

(** ** The pricing calculation *)

(** [gst_rates]: a dict literal; insertion order is the order of the
    select box. *)
Definition gst_rates : list (string * float) :=
  [ ("Essentials",            B64.lit 0 2);
    ("Food Items",            B64.lit 5 2);
    ("Apparel under ₹1,000",  B64.lit 5 2);
    ("Apparel above ₹1,000",  B64.lit 12 2);
    ("Electronics",           B64.lit 18 2);
    ("Luxury Goods",          B64.lit 28 2) ]%string.

Fixpoint dict_get {V : Type} (d : list (string * V)) (k : string) : result V :=
  match d with
  | [] => Raise (KeyError k)
  | (k', v) :: d' => if String.eqb k k' then Ok v else dict_get d' k
  end.

Definition dict_keys {V : Type} (d : list (string * V)) : list string :=
  map fst d.

(** The values the widgets hand to the calculation. *)
Record PricingInput : Type := {
  competitor_price : float;
  cost_price : float;
  category : string;
  demand : Z;
  stock : Z;
  seasonal : bool;
  discount : Z
}.

Record PricingBreakdown : Type := {
  demand_factor : float;
  stock_factor : float;
  seasonal_factor : pynum;
  gst_rate : float;
  pre_gst_price : float;
  discount_amount : float;
  price_after_discount : float;
  gst_amount : float;
  final_price : float;
  profit : float;
  profit_margin : pynum
}.

(** Line 65, the conditional expression
    [(profit / final_price) * 100 if final_price > 0 else 0]: the division
    is evaluated only in the first branch, the other branch is the [int]
    object [0]. *)
Definition margin_expr (profit final_price : float) : result pynum :=
  if B64.ltb (B64.of_int 0) final_price
  then q <- float_truediv profit final_price ;;
       Ok (PyFloat (B64.mul q (B64.of_int 100)))
  else Ok (PyInt 0).

(** Lines 53-65 of the script, in order. *)
Definition pricing (i : PricingInput) : result PricingBreakdown :=
  let base_price := competitor_price i in
  d100 <- int_truediv (demand i) 100 ;;
  let demand_factor := B64.add (B64.of_int 1) (B64.mul d100 (B64.lit 2 1)) in
  s100 <- int_truediv (stock i) 100 ;;
  let stock_factor := B64.sub (B64.of_int 1) (B64.mul s100 (B64.lit 15 2)) in
  let seasonal_factor := if seasonal i then PyFloat (B64.lit 11 1) else PyInt 1 in
  gst_rate <- dict_get gst_rates (category i) ;;
  let pre_gst_price :=
    B64.mul (B64.mul (B64.mul base_price demand_factor) stock_factor)
            (to_float seasonal_factor) in
  c100 <- int_truediv (discount i) 100 ;;
  let discount_amount := B64.mul pre_gst_price c100 in
  let price_after_discount := B64.sub pre_gst_price discount_amount in
  let gst_amount := B64.mul price_after_discount gst_rate in
  let final_price := B64.add price_after_discount gst_amount in
  let profit := B64.sub final_price (cost_price i) in
  profit_margin <- margin_expr profit final_price ;;
  Ok {| demand_factor := demand_factor;
        stock_factor := stock_factor;
        seasonal_factor := seasonal_factor;
        gst_rate := gst_rate;
        pre_gst_price := pre_gst_price;
        discount_amount := discount_amount;
        price_after_discount := price_after_discount;
        gst_amount := gst_amount;
        final_price := final_price;
        profit := profit;
        profit_margin := profit_margin |}.

(** ** The script around the calculation *)

(** What the sidebar widgets return in one run of the script. *)
Record Widgets : Type := {
  ui_product_name : string;
  ui_category : string;
  ui_competitor_price : float;
  ui_scenario : string;
  ui_demand : Z;
  ui_stock : Z;
  ui_seasonal : bool;
  ui_discount : Z;
  ui_cost_price : float;
  ui_save : bool
}.

(** Lines 38-48: a preset fixes the four signals, [Custom] reads the
    sliders and the checkbox. *)
Definition scenario_signals (w : Widgets) : Z * Z * bool * Z :=
  if String.eqb (ui_scenario w) "High Demand, Low Stock" then (90, 20, false, 0)
  else if String.eqb (ui_scenario w) "Clearance Sale" then (40, 80, false, 30)
  else if String.eqb (ui_scenario w) "Festive Boost" then (70, 50, true, 10)
  else (ui_demand w, ui_stock w, ui_seasonal w, ui_discount w).

Definition inputs_of (w : Widgets) : PricingInput :=
  let '(demand, stock, seasonal, discount) := scenario_signals w in
  {| competitor_price := ui_competitor_price w;
     cost_price := ui_cost_price w;
     category := ui_category w;
     demand := demand;
     stock := stock;
     seasonal := seasonal;
     discount := discount |}.

(** One row of the history: the dict appended at lines 69-74. *)
Record LedgerEntry : Type := {
  Product : string;
  Category : string;
  Final_Price : pynum;
  Profit_Margin : pynum
}.

(** [st.session_state]: the key [history] is absent in a new session. *)
Record SessionState : Type := {
  history : option (list LedgerEntry)
}.

Definition new_session : SessionState := {| history := None |}.

(** [list.append]. *)
Definition append {A : Type} (l : list A) (x : A) : list A := l ++ [x].

(** Lines 12-13. *)
Definition init_history (st : SessionState) : list LedgerEntry :=
  match history st with
  | Some h => h
  | None => []
  end.

(** The rows a reader of the ledger sees. *)
Definition ledger_all (st : SessionState) : list LedgerEntry :=
  init_history st.

Definition make_entry (w : Widgets) (b : PricingBreakdown) : LedgerEntry :=
  {| Product := ui_product_name w;
     Category := ui_category w;
     Final_Price := round2 (PyFloat (final_price b));
     Profit_Margin := round2 (profit_margin b) |}.

(** One run of the script, up to line 74: the state it leaves and the
    breakdown it goes on to display. *)
Definition script_run (st : SessionState) (w : Widgets)
  : result (SessionState * PricingBreakdown) :=
  let h := init_history st in
  b <- pricing (inputs_of w) ;;
  let h' := if ui_save w then append h (make_entry w b) else h in
  Ok ({| history := Some h' |}, b).

(** Successive runs in one session; an exception ends the run that raised
    it. *)
Fixpoint script_runs (st : SessionState) (ws : list Widgets)
  : result SessionState :=
  match ws with
  | [] => Ok st
  | w :: ws' => r <- script_run st w ;; script_runs (fst r) ws'
  end.

(** The row a run saves, when it saves one. *)
Definition saved_entry (w : Widgets) : list LedgerEntry :=
  if ui_save w then
    match pricing (inputs_of w) with
    | Ok b => [make_entry w b]
    | Raise _ => []
    end
  else [].

(** ** The documented input domain *)

Definition in_range (lo hi n : Z) : bool := (lo <=? n) && (n <=? hi).

Definition known_category (c : string) : bool :=
  existsb (String.eqb c) (dict_keys gst_rates).

(** A binary64 value that is a number: well formed, not an infinity, not
    a NaN. *)
Definition finite_float (x : float) : bool :=
  B64.valid x && B64.is_finite x.

Definition valid_input (i : PricingInput) : bool :=
  finite_float (competitor_price i)
  && B64.ltb B64.pzero (competitor_price i)
  && finite_float (cost_price i)
  && B64.leb B64.pzero (cost_price i)
  && known_category (category i)
  && in_range 0 100 (demand i)
  && in_range 0 100 (stock i)
  && in_range 0 50 (discount i).

(** ** The expressions of the calculation as functions of the signals

    The right-hand sides of lines 54-56, 59 and 60, for a slider value
    given as an integer. *)

Definition demand_factor_of (d : Z) : float :=
  B64.add (B64.of_int 1)
    (B64.mul (B64.div (B64.of_int d) (B64.of_int 100)) (B64.lit 2 1)).

Definition stock_factor_of (s : Z) : float :=
  B64.sub (B64.of_int 1)
    (B64.mul (B64.div (B64.of_int s) (B64.of_int 100)) (B64.lit 15 2)).

Definition seasonal_factor_of (on : bool) : pynum :=
  if on then PyFloat (B64.lit 11 1) else PyInt 1.

Definition discount_fraction_of (c : Z) : float :=
  B64.div (B64.of_int c) (B64.of_int 100).

Definition pre_gst_price_of (p : float) (d s : Z) (on : bool) : float :=
  B64.mul (B64.mul (B64.mul p (demand_factor_of d)) (stock_factor_of s))
          (to_float (seasonal_factor_of on)).

(** The same input with one signal changed. *)
Definition with_demand (i : PricingInput) (d : Z) : PricingInput :=
  {| competitor_price := competitor_price i;
     cost_price := cost_price i;
     category := category i;
     demand := d;
     stock := stock i;
     seasonal := seasonal i;
     discount := discount i |}.

Definition with_stock (i : PricingInput) (s : Z) : PricingInput :=
  {| competitor_price := competitor_price i;
     cost_price := cost_price i;
     category := category i;
     demand := demand i;
     stock := s;
     seasonal := seasonal i;
     discount := discount i |}.

Definition with_seasonal (i : PricingInput) (on : bool) : PricingInput :=
  {| competitor_price := competitor_price i;
     cost_price := cost_price i;
     category := category i;
     demand := demand i;
     stock := stock i;
     seasonal := on;
     discount := discount i |}.

(** *** Checks over the slider ranges

    The sliders take finitely many values, so a property of a factor is
    checked on each of them. *)
Fixpoint all_upto (P : Z -> bool) (n : nat) : bool :=
  match n with
  | O => P 0
  | S k => P (Z.of_nat n) && all_upto P k
  end.

(** A factor [y]: a positive number that does not round the smallest
    positive price to zero, between [lo] and [hi]. *)
Definition factor_ok (lo hi y : float) : bool :=
  B64.pos_finite y
  && (1 <=? B64.ord (B64.mul B64.min_float y))
  && (B64.ord lo <=? B64.ord y) && (B64.ord y <=? B64.ord hi).

Definition demand_factor_ok (d : Z) : bool :=
  factor_ok (B64.of_int 1) (B64.lit 12 1) (demand_factor_of d).

Definition stock_factor_ok (s : Z) : bool :=
  factor_ok (B64.lit 85 2) (B64.of_int 1) (stock_factor_of s).

(** From one slider value to the next. *)
Definition demand_factor_step (d : Z) : bool :=
  B64.ord (demand_factor_of d) <=? B64.ord (demand_factor_of (d + 1)).

Definition stock_factor_step (s : Z) : bool :=
  B64.ord (stock_factor_of (s + 1)) <=? B64.ord (stock_factor_of s).

(** A discount fraction is [+0] or a positive number of at most a half. *)
Definition discount_fraction_ok (c : Z) : bool :=
  let r := discount_fraction_of c in
  if c =? 0 then match r with S754_zero false => true | _ => false end
  else B64.pos_finite r && (B64.ord r <=? B64.ord B64.half).

(** A tax rate is [+0] or a positive number. *)
Definition rate_ok (r : float) : bool :=
  match r with
  | S754_zero false => true
  | _ => B64.pos_finite r
  end.

(** The largest pre-discount price of a competitor price of at most
    [1e308]. *)
Definition price_bound : float := B64.of_int (10 ^ 308).

Definition pre_gst_price_bound : float :=
  B64.mul (B64.mul (B64.mul price_bound (B64.lit 12 1)) (B64.of_int 1))
          (B64.lit 11 1).

(** ** The claims of the specification, as stated

    Two boundary properties are stated in the specification for every
    valid input.  They are kept here as propositions so that the
    behaviour of the script can be compared with them. *)


(** "[discountPercent = 0] implies [discountAmount = 0] and
    [priceAfterDiscount = preDiscountPrice]", for every valid input. *)
Definition discount_boundary_as_stated : Prop :=
  forall i b,
    valid_input i = true -> discount i = 0 -> pricing i = Ok b ->
    B64.eqb (discount_amount b) B64.pzero = true /\
    B64.eqb (price_after_discount b) (pre_gst_price b) = true.

(** "Category Essentials implies [taxAmount = 0] and
    [finalPrice = priceAfterDiscount]", for every valid input. *)
Definition tax_boundary_as_stated : Prop :=
  forall i b,
    valid_input i = true -> category i = "Essentials"%string ->
    pricing i = Ok b ->
    B64.eqb (gst_amount b) B64.pzero = true /\
    B64.eqb (final_price b) (price_after_discount b) = true.


(** The first worked scenario "returns exactly" the decimals
    [101.75], [120.065] and [70.065] for the pre-discount price, the final
    price and the profit: read as the binary64 numbers those literals
    denote. *)
Definition scenario_values_as_stated (i : PricingInput) : Prop :=
  exists b,
    pricing i = Ok b /\
    B64.eqb (pre_gst_price b) (B64.lit 10175 2) = true /\
    B64.eqb (final_price b) (B64.lit 120065 3) = true /\
    B64.eqb (profit b) (B64.lit 70065 3) = true.

(** Three runs that save a row: the first worked scenario, the
    clearance preset and the festive preset. *)
Definition lamp_widgets : Widgets :=
  {| ui_product_name := "Lamp";
     ui_category := "Electronics";
     ui_competitor_price := B64.of_int 100;
     ui_scenario := "Custom";
     ui_demand := 50;
     ui_stock := 50;
     ui_seasonal := false;
     ui_discount := 0;
     ui_cost_price := B64.of_int 50;
     ui_save := true |}.

Definition rice_widgets : Widgets :=
  {| ui_product_name := "Rice";
     ui_category := "Essentials";
     ui_competitor_price := B64.of_int 200;
     ui_scenario := "Clearance Sale";
     ui_demand := 50;
     ui_stock := 50;
     ui_seasonal := false;
     ui_discount := 0;
     ui_cost_price := B64.of_int 100;
     ui_save := true |}.

Definition watch_widgets : Widgets :=
  {| ui_product_name := "Watch";
     ui_category := "Luxury Goods";
     ui_competitor_price := B64.of_int 900;
     ui_scenario := "Festive Boost";
     ui_demand := 50;
     ui_stock := 50;
     ui_seasonal := false;
     ui_discount := 0;
     ui_cost_price := B64.of_int 400;
     ui_save := true |}.

(** The decimal [n * 10^-k] as a rational, and the tolerance within
    which the binary64 results are compared with the decimals of the
    worked scenarios. *)
Definition decimal (n : Z) (k : nat) : Q :=
  Qmake n (Z.to_pos (10 ^ Z.of_nat k)).

Definition tolerance : Q := Qmake 1 (Pos.pow 10 12).

Definition close_to (x : float) (n : Z) (k : nat) : bool :=
  B64.within tolerance x (decimal n k).

(** A competitor price of [1.7e308] at full demand and no stock: the
    pre-discount price exceeds the largest binary64 number. *)
Definition overflow_input (c : string) (d : Z) : PricingInput :=
  {| competitor_price := B64.of_int (17 * 10 ^ 307);
     cost_price := B64.of_int 50;
     category := c;
     demand := 100;
     stock := 0;
     seasonal := false;
     discount := d |}.


(** The two worked scenarios of the specification. *)
Definition scenario_electronics : PricingInput :=
  {| competitor_price := B64.of_int 100;
     cost_price := B64.of_int 50;
     category := "Electronics";
     demand := 50;
     stock := 50;
     seasonal := false;
     discount := 0 |}.

Definition clearance_widgets : Widgets :=
  {| ui_product_name := "";
     ui_category := "Essentials";
     ui_competitor_price := B64.of_int 200;
     ui_scenario := "Clearance Sale";
     ui_demand := 50;
     ui_stock := 50;
     ui_seasonal := false;
     ui_discount := 0;
     ui_cost_price := B64.of_int 100;
     ui_save := false |}.

(** The record a successful run returns, field by field. *)
Record pricing_spec (i : PricingInput) (b : PricingBreakdown) : Prop := {
  ps_demand_factor :
    demand_factor b =
    B64.add (B64.of_int 1)
      (B64.mul (B64.div (B64.of_int (demand i)) (B64.of_int 100)) (B64.lit 2 1));
  ps_stock_factor :
    stock_factor b =
    B64.sub (B64.of_int 1)
      (B64.mul (B64.div (B64.of_int (stock i)) (B64.of_int 100)) (B64.lit 15 2));
  ps_seasonal_factor :
    seasonal_factor b = if seasonal i then PyFloat (B64.lit 11 1) else PyInt 1;
  ps_gst_rate : dict_get gst_rates (category i) = Ok (gst_rate b);
  ps_pre_gst_price :
    pre_gst_price b =
    B64.mul (B64.mul (B64.mul (competitor_price i) (demand_factor b))
                     (stock_factor b))
            (to_float (seasonal_factor b));
  ps_discount_amount :
    discount_amount b =
    B64.mul (pre_gst_price b)
            (B64.div (B64.of_int (discount i)) (B64.of_int 100));
  ps_price_after_discount :
    price_after_discount b = B64.sub (pre_gst_price b) (discount_amount b);
  ps_gst_amount :
    gst_amount b = B64.mul (price_after_discount b) (gst_rate b);
  ps_final_price :
    final_price b = B64.add (price_after_discount b) (gst_amount b);
  ps_profit : profit b = B64.sub (final_price b) (cost_price i);
  ps_profit_margin :
    profit_margin b =
    if B64.ltb (B64.of_int 0) (final_price b)
    then PyFloat (B64.mul (B64.div (profit b) (final_price b)) (B64.of_int 100))
    else PyInt 0
}.

(** ** The widgets and the displays *)

(** The options of the radio button (line 35). *)
Definition scenario_options : list string :=
  [ "Custom"; "High Demand, Low Stock"; "Clearance Sale"; "Festive Boost" ]%string.

(** Whether the script creates the sliders and the checkbox: only in the
    [else] branch of lines 38-48. *)
Definition reads_sliders (w : Widgets) : bool :=
  negb (String.eqb (ui_scenario w) "High Demand, Low Stock"
        || String.eqb (ui_scenario w) "Clearance Sale"
        || String.eqb (ui_scenario w) "Festive Boost").

(** What the widgets can return: the select box one of the keys of the
    table, the radio button one of its options, the number inputs a number
    not below their [min_value] ([1.0] and [0.0]), the sliders a value of
    their range. *)
Definition valid_widgets (w : Widgets) : bool :=
  existsb (String.eqb (ui_category w)) (dict_keys gst_rates)
  && finite_float (ui_competitor_price w)
  && B64.leb (B64.lit 10 1) (ui_competitor_price w)
  && existsb (String.eqb (ui_scenario w)) scenario_options
  && (if reads_sliders w
      then in_range 0 100 (ui_demand w) && in_range 0 100 (ui_stock w)
           && in_range 0 50 (ui_discount w)
      else true)
  && finite_float (ui_cost_price w)
  && B64.leb (B64.lit 0 1) (ui_cost_price w).

(** The same widgets with other slider and checkbox values. *)
Definition with_sliders (w : Widgets) (d s : Z) (on : bool) (c : Z) : Widgets :=
  {| ui_product_name := ui_product_name w;
     ui_category := ui_category w;
     ui_competitor_price := ui_competitor_price w;
     ui_scenario := ui_scenario w;
     ui_demand := d;
     ui_stock := s;
     ui_seasonal := on;
     ui_discount := c;
     ui_cost_price := ui_cost_price w;
     ui_save := ui_save w |}.

(** Line 96: the wedge sizes handed to the pie chart. *)
Definition sizes (b : PricingBreakdown) : list float :=
  [price_after_discount b; discount_amount b; gst_amount b].

(** Line 107: the heights of the bar chart. *)
Definition comparison_prices (i : PricingInput) (b : PricingBreakdown)
  : list float :=
  [competitor_price i; pre_gst_price b; final_price b].

(** Line 115, [if st.session_state.history:]: a list is true when it is
    not empty. *)
Definition shows_history (st : SessionState) : bool :=
  match ledger_all st with
  | [] => false
  | _ :: _ => true
  end.

(** A number that is not negative: [+0] or positive and finite. *)
Definition nonneg_finite (x : float) : bool :=
  match x with
  | S754_zero false => true
  | _ => B64.pos_finite x
  end.

(** The largest final price of a competitor price of at most [1e308]. *)
Definition final_price_bound : float :=
  B64.add pre_gst_price_bound (B64.mul pre_gst_price_bound (B64.lit 28 2)).

(** Whether a rate is at most [0.28]. *)
Definition rate_at_most_28 (r : float) : bool :=
  B64.ord r <=? B64.ord (B64.lit 28 2).

(** The number of runs that pressed the save button. *)
Definition saves (ws : list Widgets) : nat :=
  List.length (filter ui_save ws).

(** * Properties *)

(** ** Binary64 rounding

    The facts about [SpecFloat] the calculation needs: what the rounding
    of a product, a sum and a difference returns, and that it is monotone. *)

Module B64Facts.
Import B64.

(** [digits2_pos p] is the number of binary digits of [p]. *)
Lemma digits2_pos_bounds (p : positive) :
  2 ^ (Zpos (digits2_pos p) - 1) <= Zpos p < 2 ^ Zpos (digits2_pos p).
Proof.
  induction p as [p IH|p IH|]; cbn [digits2_pos].
  - rewrite Pos2Z.inj_succ.
    replace (Z.succ (Zpos (digits2_pos p)) - 1) with (Z.succ (Zpos (digits2_pos p) - 1)) by lia.
    rewrite !Z.pow_succ_r by lia. lia.
  - rewrite Pos2Z.inj_succ.
    replace (Z.succ (Zpos (digits2_pos p)) - 1) with (Z.succ (Zpos (digits2_pos p) - 1)) by lia.
    rewrite !Z.pow_succ_r by lia. lia.
  - simpl. lia.
Qed.

(** One more right shift: the quotient is halved and the location of the
    remainder follows. *)
Lemma shr_1_inv (M n : Z) (mrs : shr_record) :
  0 <= M -> 0 <= n -> shr_inv M n mrs -> shr_inv M (n + 1) (shr_1 mrs).
Proof.
  intros HM Hn [Hm Hl].
  assert (HP : 0 < 2 ^ n) by (apply Z.pow_pos_nonneg; lia).
  unfold shr_inv. rewrite Z.pow_add_r, Z.pow_1_r by lia.
  pose proof (Z.div_mod M (2 ^ n) ltac:(lia)) as HD.
  pose proof (Z.mod_pos_bound M (2 ^ n) HP) as HR.
  set (P := 2 ^ n) in *. set (q := M / P) in *. set (r := M mod P) in *.
  assert (Hq : 0 <= q) by (apply Z.div_pos; lia).
  destruct mrs as [m rb sb]. cbn [shr_m] in Hm. subst m.
  assert (Hs : orb rb sb = negb (r =? 0)).
  { unfold loc_rem in Hl. destruct (r =? 0), rb, sb; simpl in *; congruence. }
  pose proof (Z.div_mod q 2 ltac:(lia)) as HD2.
  pose proof (Z.mod_pos_bound q 2 ltac:(lia)) as HR2.
  assert (Hdiv : M / (P * 2) = q / 2).
  { symmetry. apply Z.div_unique with (r := (q mod 2) * P + r); nia. }
  assert (Hmod : M mod (P * 2) = (q mod 2) * P + r).
  { symmetry. apply Z.mod_unique with (q := q / 2); nia. }
  rewrite Hdiv, Hmod.
  unfold shr_1. rewrite Hs.
  destruct q as [|[q'|q'|]|q']; try lia.
  - (* 0 *) change (0 / 2) with 0. change (0 mod 2) with 0.
    cbn [shr_m loc_of_shr_record]. split; [reflexivity|].
    unfold loc_rem. replace (0 * P + r) with r by lia.
    destruct (Z.eqb_spec r 0); cbn [negb]; [reflexivity|].
    f_equal. symmetry. apply Z.compare_lt_iff. lia.
  - (* xI *)
    assert (Zpos q'~1 / 2 = Zpos q' /\ Zpos q'~1 mod 2 = 1) as [-> ->].
    { split; symmetry; [apply Z.div_unique with (r:=1)|apply Z.mod_unique with (q:=Zpos q')]; lia. }
    cbn [shr_m loc_of_shr_record]. split; [reflexivity|].
    unfold loc_rem.
    destruct (Z.eqb_spec (1 * P + r) 0); [lia|].
    destruct (Z.eqb_spec r 0); cbn [negb]; f_equal; symmetry.
    + apply Z.compare_eq_iff. lia.
    + apply Z.compare_gt_iff. lia.
  - (* xO *)
    assert (Zpos q'~0 / 2 = Zpos q' /\ Zpos q'~0 mod 2 = 0) as [-> ->].
    { split; symmetry; [apply Z.div_unique with (r:=0)|apply Z.mod_unique with (q:=Zpos q')]; lia. }
    cbn [shr_m loc_of_shr_record]. split; [reflexivity|].
    unfold loc_rem. replace (0 * P + r) with r by lia.
    destruct (Z.eqb_spec r 0); cbn [negb]; [reflexivity|].
    f_equal. symmetry. apply Z.compare_lt_iff. lia.
  - (* 1 *)
    change (1 / 2) with 0. change (1 mod 2) with 1.
    cbn [shr_m loc_of_shr_record]. split; [reflexivity|].
    unfold loc_rem.
    destruct (Z.eqb_spec (1 * P + r) 0); [lia|].
    destruct (Z.eqb_spec r 0); cbn [negb]; f_equal; symmetry.
    + apply Z.compare_eq_iff. lia.
    + apply Z.compare_gt_iff. lia.
Qed.

Lemma iter_shr_1_inv (M : Z) (p : positive) :
  0 <= M -> forall n mrs, 0 <= n -> shr_inv M n mrs ->
  shr_inv M (n + Zpos p) (iter_pos shr_1 p mrs).
Proof.
  intros HM. induction p as [p IH|p IH|]; intros n mrs Hn H; cbn [iter_pos].
  - replace (n + Zpos p~1) with (((n + 1) + Zpos p) + Zpos p) by lia.
    apply IH; [lia|]. apply IH; [lia|]. apply shr_1_inv; assumption.
  - replace (n + Zpos p~0) with ((n + Zpos p) + Zpos p) by lia.
    apply IH; [lia|]. apply IH; assumption.
  - apply shr_1_inv; assumption.
Qed.

Lemma fexp_eq (e : Z) : fexp prec emax e = Z.max (e - 53) (-1074).
Proof. reflexivity. Qed.

Lemma Zdigits2_bounds (M : Z) :
  0 < M -> 2 ^ (Zdigits2 M - 1) <= M < 2 ^ Zdigits2 M.
Proof.
  destruct M as [|p|p]; try lia. intros _. apply digits2_pos_bounds.
Qed.

Lemma Zdigits2_pos (M : Z) : 0 < M -> 0 < Zdigits2 M.
Proof. destruct M; simpl; lia. Qed.

Lemma Zdigits2_unique (M d : Z) :
  2 ^ (d - 1) <= M < 2 ^ d -> 0 < d -> Zdigits2 M = d.
Proof.
  intros [Hlo Hhi] Hd.
  assert (HM : 0 < M).
  { apply Z.lt_le_trans with (2 := Hlo). apply Z.pow_pos_nonneg; lia. }
  pose proof (Zdigits2_bounds M HM) as [Hlo' Hhi'].
  pose proof (Zdigits2_pos M HM) as Hd'.
  destruct (Z.lt_trichotomy (Zdigits2 M) d) as [H|[H|H]]; [|assumption|].
  - assert (2 ^ Zdigits2 M <= 2 ^ (d - 1)) by (apply Z.pow_le_mono_r; lia). lia.
  - assert (2 ^ d <= 2 ^ (Zdigits2 M - 1)) by (apply Z.pow_le_mono_r; lia). lia.
Qed.

(** [rne M n] in terms of the quotient and the remainder of [M] by [2^n]. *)
Lemma rne_eq (M n : Z) :
  0 <= n ->
  rne M n =
  match loc_rem (M mod 2 ^ n) (2 ^ n) with
  | loc_Exact | loc_Inexact Lt => M / 2 ^ n
  | loc_Inexact Eq => if Z.even (M / 2 ^ n) then M / 2 ^ n else M / 2 ^ n + 1
  | loc_Inexact Gt => M / 2 ^ n + 1
  end.
Proof.
  intros Hn. unfold rne, round_half_even_shift.
  rewrite Z.shiftr_div_pow2, !Z.shiftl_mul_pow2, Z.mul_1_l by lia.
  assert (HP : 0 < 2 ^ n) by (apply Z.pow_pos_nonneg; lia).
  pose proof (Z.div_mod M (2 ^ n) ltac:(lia)) as HD.
  replace (M - M / 2 ^ n * 2 ^ n) with (M mod 2 ^ n) by lia.
  unfold loc_rem. destruct (Z.eqb_spec (M mod 2 ^ n) 0) as [->|]; [|reflexivity].
  assert (Hc : (2 * 0 ?= 2 ^ n) = Lt) by (apply Z.compare_lt_iff; lia).
  rewrite Hc. reflexivity.
Qed.

Lemma round_nearest_even_rne (M n : Z) (mrs : shr_record) :
  0 <= n -> shr_inv M n mrs ->
  round_nearest_even (shr_m mrs) (loc_of_shr_record mrs) = rne M n.
Proof.
  intros Hn [Hm Hl]. rewrite rne_eq, Hm, Hl by assumption.
  unfold round_nearest_even.
  destruct (loc_rem _ _) as [|[]]; reflexivity.
Qed.

Lemma rne_bounds (M n : Z) :
  0 <= n -> M / 2 ^ n <= rne M n <= M / 2 ^ n + 1.
Proof.
  intros Hn. rewrite rne_eq by assumption.
  destruct (loc_rem _ _) as [|[]]; try destruct (Z.even _); lia.
Qed.

(** First step of the rounding: the mantissa is shifted to the exponent of
    the format, keeping where the dropped bits lie. *)
Lemma shr_fexp_spec (M E : Z) :
  0 <= M -> E <= cexp M E ->
  exists mrs,
    shr_fexp prec emax M E loc_Exact = (mrs, cexp M E) /\
    shr_inv M (cexp M E - E) mrs.
Proof.
  intros HM HE. unfold shr_fexp. fold (cexp M E).
  cbn [shr_record_of_loc].
  assert (H0 : shr_inv M 0 (Build_shr_record M false false)).
  { split; cbn [shr_m loc_of_shr_record].
    - rewrite Z.pow_0_r, Z.div_1_r. reflexivity.
    - rewrite Z.pow_0_r, Z.mod_1_r. reflexivity. }
  unfold shr. destruct (cexp M E - E) as [|p|p] eqn:Hn; try lia.
  - eexists; split; [f_equal; lia|exact H0].
  - eexists; split; [f_equal; lia|].
    apply (iter_shr_1_inv M p HM 0 _ ltac:(lia) H0).
Qed.

Lemma Zdigits2_le (M k : Z) : 0 <= k -> 0 <= M < 2 ^ k -> Zdigits2 M <= k.
Proof.
  intros Hk [H0 Hlt]. destruct (Z.eq_dec M 0) as [->|Hne]; [simpl; lia|].
  pose proof (Zdigits2_bounds M ltac:(lia)) as [Hlo _].
  pose proof (Zdigits2_pos M ltac:(lia)).
  destruct (Z.le_gt_cases (Zdigits2 M) k) as [|Hgt]; [assumption|].
  assert (2 ^ k <= 2 ^ (Zdigits2 M - 1)) by (apply Z.pow_le_mono_r; lia). lia.
Qed.

Lemma pow2_52 : 2 ^ 52 = 4503599627370496. Proof. reflexivity. Qed.
Lemma pow2_53 : 2 ^ 53 = 9007199254740992. Proof. reflexivity. Qed.

(** Size of the mantissa rounded at that exponent: 53 bits, or [2^53] when
    the rounding carried; at most [2^52] for a subnormal number. *)
Lemma stage1_bounds (M E : Z) :
  0 < M -> E <= cexp M E ->
  let c := cexp M E in
  let m1 := rne M (c - E) in
  (-1074 < c -> 2 ^ 52 <= m1 <= 2 ^ 53) /\
  (c = -1074 -> 0 <= m1 <= 2 ^ 53) /\
  (Zdigits2 M + E - 53 < -1074 -> 0 <= m1 <= 2 ^ 52) /\
  -1074 <= c.
Proof.
  intros HM HE c m1. subst m1. unfold c in *. clear c.
  unfold cexp in *. rewrite fexp_eq in *.
  pose proof (Zdigits2_bounds M HM) as [Hlo Hhi].
  pose proof (Zdigits2_pos M HM) as Hd.
  set (d := Zdigits2 M) in *.
  set (c := Z.max (d + E - 53) (-1074)) in *.
  assert (Hn : 0 <= c - E) by lia.
  pose proof (rne_bounds M (c - E) Hn) as Hr.
  assert (HP : 0 < 2 ^ (c - E)) by (apply Z.pow_pos_nonneg; lia).
  assert (Hq0 : 0 <= M / 2 ^ (c - E)) by (apply Z.div_pos; lia).
  assert (Hup : M / 2 ^ (c - E) < 2 ^ 53).
  { apply Z.div_lt_upper_bound; [lia|].
    rewrite <- Z.pow_add_r by lia.
    apply Z.lt_le_trans with (1 := Hhi). apply Z.pow_le_mono_r; lia. }
  split; [|split; [|split]]; try lia.
  - intros Hc. assert (c = d + E - 53) as Hc' by lia.
    assert (2 ^ 52 <= M / 2 ^ (c - E)); [|lia].
    apply Z.div_le_lower_bound; [lia|].
    rewrite <- Z.pow_add_r by lia.
    apply Z.le_trans with (2 := Hlo). apply Z.pow_le_mono_r; lia.
  - intros Hs.
    assert (M / 2 ^ (c - E) < 2 ^ 52); [|lia].
    apply Z.div_lt_upper_bound; [lia|].
    rewrite <- Z.pow_add_r by lia.
    apply Z.lt_le_trans with (1 := Hhi). apply Z.pow_le_mono_r; lia.
Qed.

(** Second step: a further shift happens only to undo a carry, and keeps
    the bit pattern. *)
Lemma stage2 (M E : Z) :
  0 < M -> E <= cexp M E ->
  let c := cexp M E in
  let m1 := rne M (c - E) in
  exists mrs mf ef,
    shr_fexp prec emax m1 c loc_Exact = (mrs, ef) /\
    shr_m mrs = mf /\
    0 <= mf < 2 ^ 53 /\ -1074 <= ef /\
    (-1074 < ef -> 2 ^ 52 <= mf) /\
    key ef mf = key c m1 /\
    (0 < mf -> cexp mf ef = ef).
Proof.
  intros HM HE c m1.
  destruct (stage1_bounds M E HM HE) as (Hnorm & Hsub0 & Hsub & Hc).
  fold c in Hnorm, Hsub0, Hsub, Hc. fold m1 in Hnorm, Hsub0, Hsub.
  assert (Hm1 : 0 <= m1 <= 2 ^ 53) by (destruct (Z.eq_dec c (-1074)); lia).
  destruct (Z.eq_dec m1 (2 ^ 53)) as [Htop|Hntop].
  - (* the mantissa carried into a 54th bit *)
    assert (Hcn : -1074 < c \/ c = -1074) by lia.
    assert (Hd1 : Zdigits2 m1 = 54) by (rewrite Htop; reflexivity).
    assert (Hce : cexp m1 c = c + 1).
    { unfold cexp. rewrite fexp_eq, Hd1. lia. }
    destruct (shr_fexp_spec m1 c ltac:(lia) ltac:(lia)) as (mrs & Hs & Hm & _).
    rewrite Hce in Hs, Hm. replace (c + 1 - c) with 1 in Hm by lia.
    exists mrs, (2 ^ 52), (c + 1). rewrite Hs, Hm, Htop.
    assert (Hsubn : ~ Zdigits2 M + E - 53 < -1074).
    { intros H. specialize (Hsub H). rewrite pow2_52, pow2_53 in *. lia. }
    repeat split; try reflexivity; try lia.
    + unfold key. rewrite pow2_52, pow2_53. lia.
    + intros _. unfold cexp. rewrite fexp_eq.
      replace (Zdigits2 (2 ^ 52)) with 53 by reflexivity. lia.
  - assert (Hd1 : Zdigits2 m1 <= 53) by (apply Zdigits2_le; lia).
    assert (Hd1' : -1074 < c -> Zdigits2 m1 = 53).
    { intros H. apply Zdigits2_unique; [|lia].
      specialize (Hnorm H). change (53 - 1) with 52. lia. }
    assert (Hce : cexp m1 c = c).
    { unfold cexp. rewrite fexp_eq.
      destruct (Z.eq_dec c (-1074)); [lia|]. rewrite Hd1' by lia. lia. }
    destruct (shr_fexp_spec m1 c ltac:(lia) ltac:(lia)) as (mrs & Hs & Hm & _).
    rewrite Hce in Hs, Hm. rewrite Z.sub_diag, Z.pow_0_r, Z.div_1_r in Hm.
    exists mrs, m1, c. rewrite Hs, Hm.
    repeat split; try reflexivity; try lia.
Qed.

(** What the rounding of an exact mantissa returns: a well-formed number of
    the sign asked for whose bit pattern is [rkey], capped at the pattern of
    the infinity. *)
Lemma binary_round_aux_spec (s : bool) (M : positive) (E : Z) :
  E <= cexp (Zpos M) E ->
  let x := binary_round_aux prec emax s (Zpos M) E loc_Exact in
  has_sign s x /\ valid_binary prec emax x = true /\
  ord x = Z.min (key (cexp (Zpos M) E) (rne (Zpos M) (cexp (Zpos M) E - E))) ord_inf.
Proof.
  intros HE x. subst x. unfold binary_round_aux.
  destruct (shr_fexp_spec (Zpos M) E ltac:(lia) HE) as (mrs1 & Hs1 & Hi1).
  rewrite Hs1.
  rewrite (round_nearest_even_rne (Zpos M) (cexp (Zpos M) E - E) mrs1
             ltac:(lia) Hi1).
  destruct (stage2 (Zpos M) E ltac:(lia) HE)
    as (mrs & mf & ef & Hs2 & Hm & Hmf & Hef & Hnorm & Hkey & Hcan).
  rewrite Hs2, Hm, <- Hkey. clear Hs1 Hi1 Hs2 Hm Hkey.
  unfold ord_inf, key in *. rewrite pow2_52, pow2_53 in *.
  destruct mf as [|m|m]; try lia.
  - cbn [has_sign valid_binary ord]. repeat split. 
    assert (ef = -1074) by lia. lia.
  - destruct (Z.leb_spec ef (emax - prec)) as [Hle|Hgt];
      change (emax - prec) with 971 in *.
    + cbn [has_sign valid_binary ord]. repeat split.
      * unfold bounded, canonical_mantissa.
        specialize (Hcan ltac:(lia)). unfold cexp in Hcan. cbn [Zdigits2] in Hcan.
        rewrite Hcan, Z.eqb_refl. apply Z.leb_le. exact Hle.
      * unfold key. rewrite pow2_52. lia.
    + cbn [has_sign valid_binary ord]. repeat split.
      unfold ord_inf. rewrite pow2_52. lia.
Qed.

(** [rne] is invariant under scaling and monotone. *)
Lemma rne_scale (M n k : Z) :
  0 <= n -> 0 <= k -> rne (M * 2 ^ k) (n + k) = rne M n.
Proof.
  intros Hn Hk. rewrite !rne_eq by lia.
  assert (HP : 0 < 2 ^ n) by (apply Z.pow_pos_nonneg; lia).
  assert (HK : 0 < 2 ^ k) by (apply Z.pow_pos_nonneg; lia).
  rewrite Z.pow_add_r by lia.
  rewrite Z.div_mul_cancel_r by lia.
  rewrite Z.mul_mod_distr_r by lia.
  unfold loc_rem.
  destruct (Z.eqb_spec (M mod 2 ^ n) 0) as [Hz|Hz].
  - rewrite Hz. reflexivity.
  - destruct (Z.eqb_spec (M mod 2 ^ n * 2 ^ k) 0) as [Hz'|Hz']; [nia|].
    replace (2 * (M mod 2 ^ n * 2 ^ k)) with (2 * (M mod 2 ^ n) * 2 ^ k) by ring.
    destruct (Z.compare_spec (2 * (M mod 2 ^ n) * 2 ^ k) (2 ^ n * 2 ^ k)),
             (Z.compare_spec (2 * (M mod 2 ^ n)) (2 ^ n));
      try reflexivity; nia.
Qed.

Lemma rne_mono (A B n : Z) :
  0 <= n -> A <= B -> rne A n <= rne B n.
Proof.
  intros Hn HAB.
  assert (HP : 0 < 2 ^ n) by (apply Z.pow_pos_nonneg; lia).
  pose proof (Z.div_le_mono A B (2 ^ n) HP HAB) as Hq.
  destruct (Z.eq_dec (A / 2 ^ n) (B / 2 ^ n)) as [Heq|Hne].
  - rewrite !rne_eq by lia. rewrite <- Heq.
    pose proof (Z.div_mod A (2 ^ n) ltac:(lia)) as HA.
    pose proof (Z.div_mod B (2 ^ n) ltac:(lia)) as HB.
    pose proof (Z.mod_pos_bound A (2 ^ n) HP) as HrA.
    pose proof (Z.mod_pos_bound B (2 ^ n) HP) as HrB.
    assert (Hr : A mod 2 ^ n <= B mod 2 ^ n) by lia.
    unfold loc_rem.
    destruct (Z.eqb_spec (A mod 2 ^ n) 0), (Z.eqb_spec (B mod 2 ^ n) 0);
      try lia;
      repeat match goal with
      | |- context [?a ?= ?b] => destruct (Z.compare_spec a b)
      end; try destruct (Z.even _); lia.
  - pose proof (rne_bounds A n Hn). pose proof (rne_bounds B n Hn). lia.
Qed.


Lemma dyadic_le_at (M1 E1 M2 E2 e0 : Z) :
  e0 <= E1 -> e0 <= E2 ->
  (dyadic_le M1 E1 M2 E2 <-> M1 * 2 ^ (E1 - e0) <= M2 * 2 ^ (E2 - e0)).
Proof.
  intros H1 H2. unfold dyadic_le.
  set (e := Z.min E1 E2).
  assert (HK : 0 < 2 ^ (e - e0)) by (apply Z.pow_pos_nonneg; lia).
  replace (E1 - e0) with ((E1 - e) + (e - e0)) by lia.
  replace (E2 - e0) with ((E2 - e) + (e - e0)) by lia.
  rewrite !Z.pow_add_r, !Z.mul_assoc by lia.
  split; intros H.
  - apply Z.mul_le_mono_nonneg_r; lia.
  - apply Z.mul_le_mono_pos_r in H; lia.
Qed.

Lemma mag_mono (M1 E1 M2 E2 : Z) :
  0 < M1 -> 0 < M2 -> dyadic_le M1 E1 M2 E2 ->
  Zdigits2 M1 + E1 <= Zdigits2 M2 + E2.
Proof.
  intros H1 H2 Hle. unfold dyadic_le in Hle.
  set (e := Z.min E1 E2) in *.
  pose proof (Zdigits2_bounds M1 H1) as [Hlo1 _].
  pose proof (Zdigits2_bounds M2 H2) as [_ Hhi2].
  pose proof (Zdigits2_pos M1 H1). pose proof (Zdigits2_pos M2 H2).
  destruct (Z.le_gt_cases (Zdigits2 M1 + E1) (Zdigits2 M2 + E2)) as [|Hgt];
    [assumption|exfalso].
  assert (HK1 : 0 < 2 ^ (E1 - e)) by (apply Z.pow_pos_nonneg; lia).
  assert (HK2 : 0 < 2 ^ (E2 - e)) by (apply Z.pow_pos_nonneg; lia).
  assert (Ha : 2 ^ (Zdigits2 M1 - 1) * 2 ^ (E1 - e) <= M1 * 2 ^ (E1 - e))
    by (apply Z.mul_le_mono_nonneg_r; lia).
  assert (Hb : M2 * 2 ^ (E2 - e) < 2 ^ Zdigits2 M2 * 2 ^ (E2 - e))
    by (apply Z.mul_lt_mono_pos_r; lia).
  rewrite <- Z.pow_add_r in Ha, Hb by lia.
  assert (2 ^ (Zdigits2 M2 + (E2 - e)) <= 2 ^ (Zdigits2 M1 - 1 + (E1 - e)))
    by (apply Z.pow_le_mono_r; lia).
  lia.
Qed.

Lemma cexp_mono (M1 E1 M2 E2 : Z) :
  Zdigits2 M1 + E1 <= Zdigits2 M2 + E2 -> cexp M1 E1 <= cexp M2 E2.
Proof. unfold cexp. rewrite !fexp_eq. lia. Qed.

(** The rounding is monotone. *)
Lemma rkey_mono (M1 E1 M2 E2 : Z) :
  0 < M1 -> 0 < M2 ->
  E1 <= cexp M1 E1 -> E2 <= cexp M2 E2 ->
  dyadic_le M1 E1 M2 E2 -> rkey M1 E1 <= rkey M2 E2.
Proof.
  intros H1 H2 HE1 HE2 Hle.
  pose proof (cexp_mono _ _ _ _ (mag_mono _ _ _ _ H1 H2 Hle)) as Hc.
  destruct (stage1_bounds M1 E1 H1 HE1) as (Hn1 & Hs1 & _ & Hc1).
  destruct (stage1_bounds M2 E2 H2 HE2) as (Hn2 & Hs2 & _ & Hc2).
  unfold rkey, key. rewrite pow2_52, pow2_53 in *.
  destruct (Z.eq_dec (cexp M1 E1) (cexp M2 E2)) as [Heq|Hne].
  - rewrite <- Heq. set (c := cexp M1 E1) in *.
    assert (rne M1 (c - E1) <= rne M2 (c - E2)); [|lia].
    rewrite <- Heq in *.
    set (e0 := Z.min E1 E2).
    apply (dyadic_le_at M1 E1 M2 E2 e0) in Hle; try (unfold e0; lia).
    rewrite <- (rne_scale M1 (c - E1) (E1 - e0)) by (unfold e0; lia).
    rewrite <- (rne_scale M2 (c - E2) (E2 - e0)) by (unfold e0; lia).
    replace (c - E1 + (E1 - e0)) with (c - e0) by lia.
    replace (c - E2 + (E2 - e0)) with (c - e0) by lia.
    apply rne_mono; [unfold e0; lia|assumption].
  - assert (Hlt : cexp M1 E1 < cexp M2 E2) by lia.
    specialize (Hn2 ltac:(lia)).
    assert (rne M1 (cexp M1 E1 - E1) <= 9007199254740992)
      by (destruct (Z.eq_dec (cexp M1 E1) (-1074)); lia).
    nia.
Qed.

(** *** Comparison *)

(** Shape of a well-formed finite number. *)
Lemma valid_finite_bounds (s : bool) (m : positive) (e : Z) :
  valid_binary prec emax (S754_finite s m e) = true ->
  -1074 <= e <= 971 /\ 0 < Zpos m < 2 ^ 53 /\ (-1074 < e -> 2 ^ 52 <= Zpos m) /\
  cexp (Zpos m) e = e.
Proof.
  cbn [valid_binary]. unfold bounded, canonical_mantissa.
  intros H. apply andb_true_iff in H as [Hc Hb].
  apply Z.eqb_eq in Hc. apply Z.leb_le in Hb. change (emax - prec) with 971 in Hb.
  pose proof (digits2_pos_bounds m) as [Hlo Hhi].
  assert (Hce : cexp (Zpos m) e = e) by exact Hc.
  rewrite fexp_eq in Hc.
  set (d := Zpos (digits2_pos m)) in *.
  split; [lia|]. split; [|split; [|exact Hce]].
  - split; [lia|]. apply Z.lt_le_trans with (1 := Hhi).
    apply Z.pow_le_mono_r; lia.
  - intros He. apply Z.le_trans with (2 := Hlo). apply Z.pow_le_mono_r; lia.
Qed.

Lemma pos_finite_inv (x : spec_float) :
  pos_finite x = true ->
  exists m e, x = S754_finite false m e /\
              valid_binary prec emax (S754_finite false m e) = true.
Proof.
  destruct x as [| | |[] m e]; try discriminate. intros H. eauto.
Qed.

Lemma pos_finite_good (x : spec_float) : pos_finite x = true -> good x = true.
Proof.
  destruct x as [| | |[] m e]; try discriminate. intros H. exact H.
Qed.

Lemma ord_finite_bounds (s : bool) (m : positive) (e : Z) :
  valid_binary prec emax (S754_finite s m e) = true ->
  0 < key e (Zpos m) < ord_inf.
Proof.
  intros H. destruct (valid_finite_bounds s m e H) as (He & Hm & Hn & _).
  unfold key, ord_inf. rewrite pow2_52, pow2_53 in *. lia.
Qed.

Lemma good_ord_bounds (x : spec_float) : good x = true -> 0 <= ord x <= ord_inf.
Proof.
  unfold good. intros H. apply andb_true_iff in H as [Hn Hv].
  destruct x as [[]|[]| |[] m e]; try discriminate; cbn [ord].
  - unfold ord_inf. rewrite pow2_52. lia.
  - unfold ord_inf. rewrite pow2_52. lia.
  - pose proof (ord_finite_bounds false m e Hv). lia.
Qed.

(** Nonnegative well-formed numbers compare like their bit patterns. *)
Lemma SFcompare_ord (x y : spec_float) :
  good x = true -> good y = true ->
  SFcompare x y = Some (ord x ?= ord y).
Proof.
  unfold good. intros Hx Hy.
  apply andb_true_iff in Hx as [Hnx Hvx]. apply andb_true_iff in Hy as [Hny Hvy].
  destruct x as [[]|[]| |[] mx ex]; try discriminate;
  destruct y as [[]|[]| |[] my ey]; try discriminate;
  cbn [SFcompare ord];
  try (pose proof (ord_finite_bounds false mx ex Hvx));
  try (pose proof (ord_finite_bounds false my ey Hvy));
  try reflexivity;
  try (f_equal; symmetry; first [ apply Z.compare_lt_iff | apply Z.compare_gt_iff ];
       unfold ord_inf in *; rewrite ?pow2_52 in *; lia).
  destruct (valid_finite_bounds false mx ex Hvx) as (Hex & Hmx & Hnx' & _).
  destruct (valid_finite_bounds false my ey Hvy) as (Hey & Hmy & Hny' & _).
  unfold key in *. rewrite pow2_52, pow2_53 in *.
  f_equal. destruct (Z.compare_spec ex ey) as [Heq|Hlt|Hgt].
  - subst ey. rewrite Pos.compare_cont_spec. cbn [Pos.switch_Eq].
    change (Pos.compare mx my) with (Zpos mx ?= Zpos my).
    destruct (Z.compare_spec (Zpos mx) (Zpos my));
      symmetry; [apply Z.compare_eq_iff|apply Z.compare_lt_iff|apply Z.compare_gt_iff]; lia.
  - symmetry. apply Z.compare_lt_iff. specialize (Hny' ltac:(lia)). nia.
  - symmetry. apply Z.compare_gt_iff. specialize (Hnx' ltac:(lia)). nia.
Qed.

Lemma SFleb_ord (x y : spec_float) :
  good x = true -> good y = true -> SFleb x y = (ord x <=? ord y).
Proof.
  intros Hx Hy. unfold SFleb. rewrite (SFcompare_ord x y Hx Hy).
  unfold Z.leb. destruct (ord x ?= ord y); reflexivity.
Qed.

Lemma SFltb_ord (x y : spec_float) :
  good x = true -> good y = true -> SFltb x y = (ord x <? ord y).
Proof.
  intros Hx Hy. unfold SFltb. rewrite (SFcompare_ord x y Hx Hy).
  unfold Z.ltb. destruct (ord x ?= ord y); reflexivity.
Qed.

(** The order of the bit patterns is the order of the numbers. *)
Lemma key_le_dyadic (m1 m2 : positive) (e1 e2 : Z) (s1 s2 : bool) :
  valid_binary prec emax (S754_finite s1 m1 e1) = true ->
  valid_binary prec emax (S754_finite s2 m2 e2) = true ->
  key e1 (Zpos m1) <= key e2 (Zpos m2) ->
  dyadic_le (Zpos m1) e1 (Zpos m2) e2.
Proof.
  intros H1 H2 Hk.
  destruct (valid_finite_bounds s1 m1 e1 H1) as (He1 & Hm1 & Hn1 & _).
  destruct (valid_finite_bounds s2 m2 e2 H2) as (He2 & Hm2 & Hn2 & _).
  unfold key, dyadic_le in *. rewrite pow2_52, pow2_53 in *.
  destruct (Z.lt_trichotomy e1 e2) as [Hlt|[Heq|Hgt]].
  - rewrite Z.min_l by lia. rewrite Z.sub_diag, Z.pow_0_r.
    specialize (Hn2 ltac:(lia)).
    assert (2 ^ 1 <= 2 ^ (e2 - e1)) by (apply Z.pow_le_mono_r; lia).
    change (2 ^ 1) with 2 in *. nia.
  - subst e2. rewrite Z.min_id, Z.sub_diag, Z.pow_0_r. lia.
  - specialize (Hn1 ltac:(lia)). nia.
Qed.

Lemma key_lt_dyadic (m1 m2 : positive) (e1 e2 : Z) (s1 s2 : bool) :
  valid_binary prec emax (S754_finite s1 m1 e1) = true ->
  valid_binary prec emax (S754_finite s2 m2 e2) = true ->
  key e1 (Zpos m1) < key e2 (Zpos m2) ->
  Zpos m1 * 2 ^ (e1 - Z.min e1 e2) < Zpos m2 * 2 ^ (e2 - Z.min e1 e2).
Proof.
  intros H1 H2 Hk.
  destruct (valid_finite_bounds s1 m1 e1 H1) as (He1 & Hm1 & Hn1 & _).
  destruct (valid_finite_bounds s2 m2 e2 H2) as (He2 & Hm2 & Hn2 & _).
  unfold key in *. rewrite pow2_52, pow2_53 in *.
  destruct (Z.lt_trichotomy e1 e2) as [Hlt|[Heq|Hgt]].
  - rewrite Z.min_l by lia. rewrite Z.sub_diag, Z.pow_0_r.
    specialize (Hn2 ltac:(lia)).
    assert (2 ^ 1 <= 2 ^ (e2 - e1)) by (apply Z.pow_le_mono_r; lia).
    change (2 ^ 1) with 2 in *. nia.
  - subst e2. rewrite Z.min_id, Z.sub_diag, Z.pow_0_r. lia.
  - specialize (Hn1 ltac:(lia)). nia.
Qed.

(** A well-formed number rounds to itself. *)
Lemma rkey_valid (s : bool) (m : positive) (e : Z) :
  valid_binary prec emax (S754_finite s m e) = true ->
  rkey (Zpos m) e = key e (Zpos m).
Proof.
  intros H. destruct (valid_finite_bounds s m e H) as (_ & _ & _ & Hc).
  unfold rkey. rewrite Hc, Z.sub_diag. f_equal.
  rewrite rne_eq by lia. rewrite Z.pow_0_r, Z.div_1_r, Z.mod_1_r. reflexivity.
Qed.

(** *** Multiplication *)

Lemma Zdigits2_ge (M k : Z) : 0 <= k -> 2 ^ k <= M -> k < Zdigits2 M.
Proof.
  intros Hk H.
  assert (HM : 0 < M).
  { apply Z.lt_le_trans with (2 := H). apply Z.pow_pos_nonneg; lia. }
  pose proof (Zdigits2_bounds M HM) as [_ Hhi].
  pose proof (Zdigits2_pos M HM).
  destruct (Z.lt_ge_cases k (Zdigits2 M)) as [|Hge]; [assumption|].
  assert (2 ^ Zdigits2 M <= 2 ^ k) by (apply Z.pow_le_mono_r; lia). lia.
Qed.

(** The exact product of two well-formed numbers is never finer than the
    format: its rounding only shifts right. *)
Lemma mul_pre (sx sy : bool) (mx my : positive) (ex ey : Z) :
  valid_binary prec emax (S754_finite sx mx ex) = true ->
  valid_binary prec emax (S754_finite sy my ey) = true ->
  ex + ey <= cexp (Zpos (mx * my)) (ex + ey).
Proof.
  intros Hx Hy.
  destruct (valid_finite_bounds sx mx ex Hx) as (Hex & Hmx & Hnx & _).
  destruct (valid_finite_bounds sy my ey Hy) as (Hey & Hmy & Hny & _).
  unfold cexp. rewrite fexp_eq. rewrite Pos2Z.inj_mul.
  destruct (Z.eq_dec ex (-1074)) as [Hx0|Hx0];
    [destruct (Z.eq_dec ey (-1074)) as [Hy0|Hy0]; [lia|]|].
  - specialize (Hny ltac:(lia)).
    assert (52 < Zdigits2 (Zpos mx * Zpos my)); [|lia].
    apply Zdigits2_ge; [lia|]. nia.
  - specialize (Hnx ltac:(lia)).
    assert (52 < Zdigits2 (Zpos mx * Zpos my)); [|lia].
    apply Zdigits2_ge; [lia|]. nia.
Qed.

Lemma mul_finite_spec (sx sy : bool) (mx my : positive) (ex ey : Z) :
  valid_binary prec emax (S754_finite sx mx ex) = true ->
  valid_binary prec emax (S754_finite sy my ey) = true ->
  let z := mul (S754_finite sx mx ex) (S754_finite sy my ey) in
  has_sign (xorb sx sy) z /\ valid_binary prec emax z = true /\
  ord z = Z.min (rkey (Zpos mx * Zpos my) (ex + ey)) ord_inf.
Proof.
  intros Hx Hy z. subst z. unfold mul. cbn [SFmul].
  rewrite <- Pos2Z.inj_mul.
  apply binary_round_aux_spec. apply (mul_pre sx sy); assumption.
Qed.

Lemma has_sign_nonneg (x : spec_float) : has_sign false x -> nonneg x = true.
Proof. destruct x as [[]|[]| |[] m e]; simpl; intros H; congruence || contradiction. Qed.

(** The product of a nonnegative number and a positive number is a
    nonnegative number, possibly [+inf]. *)
Lemma mul_good (x y : spec_float) :
  good x = true -> pos_finite y = true -> good (mul x y) = true.
Proof.
  intros Hx Hy. destruct (pos_finite_inv y Hy) as (my & ey & -> & Hvy).
  unfold good in Hx. apply andb_true_iff in Hx as [Hnx Hvx].
  destruct x as [[]|[]| |[] mx ex]; try discriminate; try reflexivity.
  destruct (mul_finite_spec false false mx my ex ey Hvx Hvy) as (Hs & Hv & _).
  unfold good. rewrite Hv, (has_sign_nonneg _ Hs). reflexivity.
Qed.

Lemma mul_comm (x y : spec_float) : mul x y = mul y x.
Proof.
  unfold mul.
  destruct x as [sx|sx| |sx mx ex], y as [sy|sy| |sy my ey]; cbn [SFmul];
    rewrite ?(xorb_comm sx sy); try reflexivity.
  rewrite (Pos.mul_comm mx my), (Z.add_comm ex ey). reflexivity.
Qed.

(** Multiplication by a positive number is monotone, overflow included. *)
Lemma mul_mono_r (x x' y : spec_float) :
  good x = true -> good x' = true -> pos_finite y = true ->
  ord x <= ord x' -> ord (mul x y) <= ord (mul x' y).
Proof.
  intros Hx Hx' Hy Hle.
  pose proof (good_ord_bounds _ (mul_good x y Hx Hy)) as Hb.
  pose proof (good_ord_bounds _ (mul_good x' y Hx' Hy)) as Hb'.
  destruct (pos_finite_inv y Hy) as (my & ey & -> & Hvy).
  unfold good in Hx, Hx'.
  apply andb_true_iff in Hx as [Hnx Hvx]. apply andb_true_iff in Hx' as [Hnx' Hvx'].
  destruct x as [[]|[]| |[] mx ex]; try discriminate.
  - (* x = +0 *) exact (proj1 Hb').
  - (* x = +inf *)
    destruct x' as [[]|[]| |[] mx' ex']; try discriminate; cbn [ord] in Hle;
      try apply Z.le_refl.
    + unfold ord_inf in Hle. rewrite pow2_52 in Hle. lia.
    + pose proof (ord_finite_bounds false mx' ex' Hvx'). lia.
  - destruct x' as [[]|[]| |[] mx' ex']; try discriminate; cbn [ord] in Hle.
    + pose proof (ord_finite_bounds false mx ex Hvx). lia.
    + exact (proj2 Hb).
    + destruct (mul_finite_spec false false mx my ex ey Hvx Hvy) as (_ & _ & ->).
      destruct (mul_finite_spec false false mx' my ex' ey Hvx' Hvy) as (_ & _ & ->).
      apply Z.min_le_compat_r.
      rewrite <- !Pos2Z.inj_mul.
      apply rkey_mono; try lia;
        try (apply (mul_pre false false); assumption).
      pose proof (key_le_dyadic mx mx' ex ex' false false Hvx Hvx' Hle) as Hd.
      unfold dyadic_le in *.
      replace (Z.min (ex + ey) (ex' + ey)) with (Z.min ex ex' + ey) by lia.
      replace (ex + ey - (Z.min ex ex' + ey)) with (ex - Z.min ex ex') by lia.
      replace (ex' + ey - (Z.min ex ex' + ey)) with (ex' - Z.min ex ex') by lia.
      rewrite !Pos2Z.inj_mul. nia.
Qed.

Lemma mul_mono_l (x y y' : spec_float) :
  good x = true -> pos_finite y = true -> pos_finite y' = true ->
  ord y <= ord y' -> ord (mul x y) <= ord (mul x y').
Proof.
  intros Hx Hy Hy' Hle.
  unfold good in Hx. apply andb_true_iff in Hx as [Hnx Hvx].
  destruct (pos_finite_inv y Hy) as (my & ey & Ey & Hvy).
  destruct (pos_finite_inv y' Hy') as (my' & ey' & Ey' & Hvy').
  destruct x as [[]|[]| |[] mx ex]; try discriminate.
  - subst; cbn; lia.
  - subst; cbn; lia.
  - rewrite (mul_comm _ y), (mul_comm _ y').
    apply mul_mono_r; try (apply pos_finite_good; assumption); try assumption.
Qed.

(** *** Addition and subtraction *)
Lemma iter_xO (m d : positive) :
  Zpos (Pos.iter xO m d) = Zpos m * 2 ^ Zpos d.
Proof.
  induction d as [|d IH] using Pos.peano_ind.
  - cbn [Pos.iter]. rewrite Z.pow_1_r. lia.
  - rewrite Pos.iter_succ, Pos2Z.inj_xO, IH, Pos2Z.inj_succ, Z.pow_succ_r by lia.
    ring.
Qed.

Lemma shl_align_spec (mx : positive) (ex e' : Z) :
  snd (shl_align mx ex e') = Z.min ex e' /\
  Zpos (fst (shl_align mx ex e')) = Zpos mx * 2 ^ (ex - Z.min ex e').
Proof.
  unfold shl_align. destruct (e' - ex) as [|d|d] eqn:Hd; cbn [fst snd].
  - rewrite Z.min_l by lia. rewrite Z.sub_diag, Z.pow_0_r. lia.
  - rewrite Z.min_l by lia. rewrite Z.sub_diag, Z.pow_0_r. lia.
  - rewrite Z.min_r by lia. rewrite iter_xO. split; [reflexivity|].
    f_equal. f_equal. lia.
Qed.

Lemma Zdigits2_shift (M k : Z) :
  0 < M -> 0 <= k -> Zdigits2 (M * 2 ^ k) = Zdigits2 M + k.
Proof.
  intros HM Hk.
  pose proof (Zdigits2_bounds M HM) as [Hlo Hhi].
  pose proof (Zdigits2_pos M HM) as Hd.
  assert (HK : 0 < 2 ^ k) by (apply Z.pow_pos_nonneg; lia).
  apply Zdigits2_unique; [|lia].
  replace (Zdigits2 M + k - 1) with (Zdigits2 M - 1 + k) by lia.
  rewrite !Z.pow_add_r by lia. split.
  - apply Z.mul_le_mono_nonneg_r; lia.
  - apply Z.mul_lt_mono_pos_r; lia.
Qed.

(** The rounding of a sum or a difference, which first aligns the exact
    mantissa on the exponent of the format. *)
Lemma binary_round_spec (s : bool) (M : positive) (E : Z) :
  exists M' E',
    0 < M' /\ E' <= cexp M' E' /\ E' <= E /\ M' = Zpos M * 2 ^ (E - E') /\
    has_sign s (binary_round prec emax s M E) /\
    valid_binary prec emax (binary_round prec emax s M E) = true /\
    ord (binary_round prec emax s M E) = Z.min (rkey M' E') ord_inf.
Proof.
  unfold binary_round.
  set (c := fexp prec emax (Zpos (digits2_pos M) + E)).
  pose proof (shl_align_spec M E c) as [He Hm].
  destruct (shl_align M E c) as [mz ez]. cbn [fst snd] in He, Hm.
  assert (Hpre : ez <= cexp (Zpos mz) ez).
  { unfold cexp. rewrite Hm, Zdigits2_shift by lia.
    replace (Zdigits2 (Zpos M) + (E - Z.min E c) + ez) with (Zpos (digits2_pos M) + E)
      by (cbn [Zdigits2]; lia).
    fold c. lia. }
  exists (Zpos mz), ez.
  destruct (binary_round_aux_spec s mz ez Hpre) as (Hs & Hv & Ho).
  repeat split; try assumption; try lia.
  rewrite Hm, He. reflexivity.
Qed.

(** A multiple of [2^-1074] does not round to zero. *)
Lemma rkey_lower (M E E0 D : Z) :
  0 < M -> E <= cexp M E -> 0 < D -> -1074 <= E0 -> E <= E0 ->
  M = D * 2 ^ (E0 - E) -> 1 <= rkey M E.
Proof.
  intros HM Hpre HD HE0 HE HMD.
  change 1 with (key (-1074) (Zpos 1)).
  rewrite <- (rkey_valid false 1 (-1074) eq_refl).
  apply rkey_mono; try lia.
  - unfold cexp. rewrite fexp_eq. simpl. lia.
  - set (e0 := Z.min (-1074) E).
    apply (dyadic_le_at 1 (-1074) M E e0); try (unfold e0; lia).
    rewrite Z.mul_1_l. rewrite HMD, <- Z.mul_assoc, <- Z.pow_add_r by (unfold e0; lia).
    assert (2 ^ (-1074 - e0) <= 2 ^ (E0 - E + (E - e0)))
      by (apply Z.pow_le_mono_r; unfold e0; lia).
    assert (0 < 2 ^ (E0 - E + (E - e0))) by (apply Z.pow_pos_nonneg; unfold e0; lia).
    nia.
Qed.

Lemma good_pos_finite (x : spec_float) :
  good x = true -> 0 < ord x < ord_inf -> pos_finite x = true.
Proof.
  unfold good. intros H Ho. apply andb_true_iff in H as [Hn Hv].
  destruct x as [[]|[]| |[] m e]; try discriminate; cbn [ord] in Ho; try lia.
  exact Hv.
Qed.

(** A positive number plus a nonnegative one is positive, possibly
    [+inf]. *)
Lemma add_pos (x y : spec_float) :
  pos_finite x = true -> good y = true ->
  good (add x y) = true /\ 0 < ord (add x y).
Proof.
  intros Hx Hy. destruct (pos_finite_inv x Hx) as (mx & ex & -> & Hvx).
  pose proof (ord_finite_bounds false mx ex Hvx) as Hox.
  unfold good in Hy. apply andb_true_iff in Hy as [Hny Hvy].
  destruct y as [[]|[]| |[] my ey]; try discriminate; unfold add; cbn [SFadd].
  - split; [exact Hvx|cbn [ord]; lia].
  - split; [reflexivity|cbn [ord]; unfold ord_inf; rewrite pow2_52; lia].
  - cbn [cond_Zopp].
    set (ez := Z.min ex ey).
    pose proof (shl_align_spec mx ex ez) as [_ Hmx].
    pose proof (shl_align_spec my ey ez) as [_ Hmy].
    destruct (valid_finite_bounds false mx ex Hvx) as (Hex & _).
    destruct (valid_finite_bounds false my ey Hvy) as (Hey & _).
    remember (Zpos (fst (shl_align mx ex ez)) + Zpos (fst (shl_align my ey ez)))
      as D0 eqn:ED.
    assert (HD : 0 < D0) by lia.
    destruct D0 as [|D|D]; try lia. cbn [binary_normalize].
    destruct (binary_round_spec false D ez)
      as (M' & E' & HM' & Hpre & HE' & HMD & Hs & Hv & Ho).
    pose proof (rkey_lower M' E' ez (Zpos D) HM' Hpre ltac:(lia)
                  ltac:(unfold ez; lia) HE' HMD) as Hlo.
    split.
    + unfold good. rewrite Hv, (has_sign_nonneg _ Hs). reflexivity.
    + rewrite Ho. unfold ord_inf. rewrite pow2_52. lia.
Qed.

(** A positive number minus a smaller nonnegative one is a positive
    number. *)
Lemma sub_pos (x y : spec_float) :
  pos_finite x = true -> good y = true -> ord y < ord x ->
  pos_finite (sub x y) = true.
Proof.
  intros Hx Hy Hlt. destruct (pos_finite_inv x Hx) as (mx & ex & -> & Hvx).
  pose proof (ord_finite_bounds false mx ex Hvx) as Hox.
  unfold good in Hy. apply andb_true_iff in Hy as [Hny Hvy].
  destruct y as [[]|[]| |[] my ey]; try discriminate; unfold sub; cbn [SFsub].
  - exact Hvx.
  - cbn [ord] in Hlt. lia.
  - cbn [cond_Zopp ord] in *.
    pose proof (key_lt_dyadic my mx ey ex false false Hvy Hvx Hlt) as Hd.
    rewrite Z.min_comm in Hd.
    set (ez := Z.min ex ey) in *.
    pose proof (shl_align_spec mx ex ez) as [_ Hmx].
    pose proof (shl_align_spec my ey ez) as [_ Hmy].
    replace (Z.min ex ez) with ez in Hmx by (unfold ez; lia).
    replace (Z.min ey ez) with ez in Hmy by (unfold ez; lia).
    destruct (valid_finite_bounds false mx ex Hvx) as (Hex & _).
    destruct (valid_finite_bounds false my ey Hvy) as (Hey & _).
    remember (Zpos (fst (shl_align mx ex ez)) - Zpos (fst (shl_align my ey ez)))
      as D0 eqn:ED.
    assert (HD : 0 < D0) by lia.
    assert (HDx : D0 <= Zpos mx * 2 ^ (ex - ez)) by lia.
    destruct D0 as [|D|D]; try lia. cbn [binary_normalize].
    destruct (binary_round_spec false D ez)
      as (M' & E' & HM' & Hpre & HE' & HMD & Hs & Hv & Ho).
    pose proof (rkey_lower M' E' ez (Zpos D) HM' Hpre ltac:(lia)
                  ltac:(unfold ez; lia) HE' HMD) as Hlo.
    assert (Hup : rkey M' E' <= key ex (Zpos mx)).
    { rewrite <- (rkey_valid false mx ex Hvx).
      destruct (valid_finite_bounds false mx ex Hvx) as (_ & _ & _ & Hc).
      apply rkey_mono; try lia.
      apply (dyadic_le_at M' E' (Zpos mx) ex E'); try (unfold ez in *; lia).
      rewrite Z.sub_diag, Z.pow_0_r, Z.mul_1_r, HMD.
      replace (ex - E') with ((ex - ez) + (ez - E')) by lia.
      rewrite Z.pow_add_r, Z.mul_assoc by (unfold ez in *; lia).
      apply Z.mul_le_mono_nonneg_r; [|assumption].
      apply Z.pow_nonneg; lia. }
    apply good_pos_finite.
    + unfold good. rewrite Hv, (has_sign_nonneg _ Hs). reflexivity.
    + rewrite Ho. lia.
Qed.

Lemma rne_half (m : Z) : 0 < m -> rne m 1 < m.
Proof.
  intros Hm. rewrite rne_eq by lia. rewrite Z.pow_1_r.
  pose proof (Z.div_mod m 2 ltac:(lia)) as HD.
  pose proof (Z.mod_pos_bound m 2 ltac:(lia)) as HR.
  unfold loc_rem.
  destruct (Z.eqb_spec (m mod 2) 0) as [Hz|Hz]; [lia|].
  assert (Hone : m mod 2 = 1) by lia. rewrite Hone.
  change (2 * 1 ?= 2) with Eq.
  destruct (Z.even (m / 2)) eqn:Hev; [lia|].
  assert (m / 2 <> 0).
  { intros H0. rewrite H0 in Hev. discriminate. }
  assert (0 <= m / 2) by (apply Z.div_pos; lia). lia.
Qed.

(** Half of a positive number is smaller than the number, also when the
    half is rounded. *)
Lemma mul_half_lt (x : spec_float) :
  pos_finite x = true -> ord (mul x half) < ord x.
Proof.
  intros Hx. destruct (pos_finite_inv x Hx) as (mx & ex & -> & Hvx).
  destruct (mul_finite_spec false false mx 4503599627370496 ex (-53) Hvx eq_refl)
    as (_ & _ & Ho).
  unfold half. rewrite Ho. cbn [ord].
  apply Z.le_lt_trans with (1 := Z.le_min_l _ _).
  destruct (valid_finite_bounds false mx ex Hvx) as (Hex & Hmx & Hn & Hc).
  unfold rkey.
  assert (Hce : cexp (Zpos mx * 4503599627370496) (ex + -53) = cexp (Zpos mx) (ex - 1)).
  { unfold cexp. rewrite <- pow2_52, Zdigits2_shift by lia. f_equal. lia. }
  rewrite Hce. set (c := cexp (Zpos mx) (ex - 1)).
  assert (Hcv : c = Z.max (ex - 1) (-1074)).
  { unfold c, cexp in *. rewrite fexp_eq in *. lia. }
  rewrite <- pow2_52.
  replace (c - (ex + -53)) with ((c - (ex - 1)) + 52) by lia.
  rewrite rne_scale by lia.
  unfold key. rewrite pow2_52.
  destruct (Z.eq_dec ex (-1074)) as [He|He].
  - replace (c - (ex - 1)) with 1 by lia.
    pose proof (rne_half (Zpos mx) ltac:(lia)). lia.
  - replace (c - (ex - 1)) with 0 by lia.
    rewrite rne_eq by lia. rewrite Z.pow_0_r, Z.div_1_r, Z.mod_1_r.
    cbn [loc_rem Z.eqb]. lia.
Qed.

End B64Facts.

(** ** Shape of the calculation *)

Lemma int_truediv_100 (a : Z) :
  int_truediv a 100 = Ok (B64.div (B64.of_int a) (B64.of_int 100)).
Proof. reflexivity. Qed.

Lemma ltb_pos_not_zero (z x : float) :
  B64.is_zero z = true -> B64.ltb z x = true -> B64.is_zero x = false.
Proof.
  destruct z; try discriminate; intros _.
  destruct x as [sx|sx| |sx mx ex]; try reflexivity.
  unfold B64.ltb, SFltb; simpl; discriminate.
Qed.

Lemma dict_get_known {V : Type} (d : list (string * V)) (k : string) :
  existsb (String.eqb k) (dict_keys d) = true -> exists v, dict_get d k = Ok v.
Proof.
  induction d as [|[k' v] d IH]; simpl; [discriminate|].
  destruct (String.eqb k k'); simpl; eauto.
Qed.

(** Reduce the projections of a breakdown and nothing else: the float
    operations stay folded. *)
Ltac breakdown_fields :=
  cbn [demand_factor stock_factor seasonal_factor gst_rate pre_gst_price
       discount_amount price_after_discount gst_amount final_price profit
       profit_margin].

Lemma margin_expr_ok (p f : float) :
  margin_expr p f =
  Ok (if B64.ltb (B64.of_int 0) f
      then PyFloat (B64.mul (B64.div p f) (B64.of_int 100))
      else PyInt 0).
Proof.
  unfold margin_expr, float_truediv.
  destruct (B64.ltb (B64.of_int 0) f) eqn:Hlt; [|reflexivity].
  rewrite (ltb_pos_not_zero (B64.of_int 0) f eq_refl Hlt). reflexivity.
Qed.

(** Evaluate the sequence of binds of [pricing] once the table lookup is
    known. *)
Ltac run_binds :=
  repeat (first [ rewrite int_truediv_100 | rewrite margin_expr_ok ];
          cbn [bind]);
  cbn [bind].

Lemma pricing_inv (i : PricingInput) (b : PricingBreakdown) :
  pricing i = Ok b -> pricing_spec i b.
Proof.
  unfold pricing.
  destruct (dict_get gst_rates (category i)) as [r|e] eqn:Hr.
  - run_binds. intros H; injection H as <-.
    split; breakdown_fields; try reflexivity; assumption.
  - run_binds. discriminate.
Qed.

(** The calculation raises only on a category that is not in the table. *)
Lemma pricing_total (i : PricingInput) :
  known_category (category i) = true -> exists b, pricing i = Ok b.
Proof.
  intros Hc. destruct (dict_get_known gst_rates _ Hc) as [r Hr].
  unfold pricing. rewrite Hr. run_binds. eauto.
Qed.

(** ** The factors on the slider ranges *)

Lemma all_upto_spec (P : Z -> bool) (n : nat) :
  all_upto P n = true -> forall z, 0 <= z <= Z.of_nat n -> P z = true.
Proof.
  induction n as [|n IH]; intros H z Hz.
  - assert (z = 0) as -> by lia. exact H.
  - cbn [all_upto] in H. apply andb_true_iff in H as [Hn Hrest].
    destruct (Z.eq_dec z (Z.of_nat (S n))) as [->|Hne]; [exact Hn|].
    apply IH; [exact Hrest|lia].
Qed.

(** A function on a range that does not decrease from one value to the
    next does not decrease on the range. *)
Lemma steps_monotone (f : Z -> Z) (hi : Z) :
  (forall d, 0 <= d < hi -> f d <= f (d + 1)) ->
  forall d1 d2, 0 <= d1 <= d2 -> d2 <= hi -> f d1 <= f d2.
Proof.
  intros Hstep d1 d2 [H1 H12] H2.
  remember (Z.to_nat (d2 - d1)) as n eqn:En.
  revert d2 H12 H2 En. induction n as [|n IH]; intros d2 H12 H2 En.
  - assert (d2 = d1) as -> by lia. lia.
  - assert (Hle : f d1 <= f (d2 - 1)) by (apply IH; lia).
    pose proof (Hstep (d2 - 1) ltac:(lia)) as Hs.
    replace (d2 - 1 + 1) with d2 in Hs by lia. lia.
Qed.

Lemma factor_ok_inv (lo hi y : float) :
  factor_ok lo hi y = true ->
  B64.pos_finite y = true /\ 1 <= B64.ord (B64.mul B64.min_float y) /\
  B64.ord lo <= B64.ord y <= B64.ord hi.
Proof.
  unfold factor_ok. intros H.
  apply andb_true_iff in H as [H Hhi]. apply andb_true_iff in H as [H Hlo].
  apply andb_true_iff in H as [Hp Hm].
  apply Z.leb_le in Hhi, Hlo, Hm. auto.
Qed.

Lemma demand_factor_facts (d : Z) :
  0 <= d <= 100 ->
  B64.pos_finite (demand_factor_of d) = true /\
  1 <= B64.ord (B64.mul B64.min_float (demand_factor_of d)) /\
  B64.ord (B64.of_int 1) <= B64.ord (demand_factor_of d)
    <= B64.ord (B64.lit 12 1).
Proof.
  intros Hd. apply factor_ok_inv.
  apply (all_upto_spec demand_factor_ok 100); [vm_compute; reflexivity|exact Hd].
Qed.

Lemma stock_factor_facts (s : Z) :
  0 <= s <= 100 ->
  B64.pos_finite (stock_factor_of s) = true /\
  1 <= B64.ord (B64.mul B64.min_float (stock_factor_of s)) /\
  B64.ord (B64.lit 85 2) <= B64.ord (stock_factor_of s)
    <= B64.ord (B64.of_int 1).
Proof.
  intros Hs. apply factor_ok_inv.
  apply (all_upto_spec stock_factor_ok 100); [vm_compute; reflexivity|exact Hs].
Qed.

Lemma demand_factor_increasing (d1 d2 : Z) :
  0 <= d1 <= d2 -> d2 <= 100 ->
  B64.ord (demand_factor_of d1) <= B64.ord (demand_factor_of d2).
Proof.
  apply (steps_monotone (fun d => B64.ord (demand_factor_of d)) 100).
  intros d Hd. apply Z.leb_le.
  apply (all_upto_spec demand_factor_step 99); [vm_compute; reflexivity|lia].
Qed.

Lemma stock_factor_decreasing (s1 s2 : Z) :
  0 <= s1 <= s2 -> s2 <= 100 ->
  B64.ord (stock_factor_of s2) <= B64.ord (stock_factor_of s1).
Proof.
  intros H1 H2.
  pose proof (steps_monotone (fun s => - B64.ord (stock_factor_of s)) 100) as H.
  cbv beta in H. enough (- B64.ord (stock_factor_of s1)
                         <= - B64.ord (stock_factor_of s2)) by lia.
  apply H; try assumption.
  intros s Hs.
  assert (Hst : stock_factor_step s = true)
    by (apply (all_upto_spec stock_factor_step 99); [vm_compute; reflexivity|lia]).
  apply Z.leb_le in Hst. lia.
Qed.

Lemma seasonal_factor_facts (on : bool) :
  B64.pos_finite (to_float (seasonal_factor_of on)) = true /\
  1 <= B64.ord (B64.mul B64.min_float (to_float (seasonal_factor_of on))) /\
  B64.ord (to_float (seasonal_factor_of false))
    <= B64.ord (to_float (seasonal_factor_of on))
    <= B64.ord (to_float (seasonal_factor_of true)).
Proof. destruct on; vm_compute; repeat split; discriminate. Qed.

Lemma discount_fraction_facts (c : Z) :
  0 <= c <= 50 ->
  (c = 0 /\ discount_fraction_of c = B64.pzero) \/
  (B64.pos_finite (discount_fraction_of c) = true /\
   B64.ord (discount_fraction_of c) <= B64.ord B64.half).
Proof.
  intros Hc.
  assert (H : discount_fraction_ok c = true)
    by (apply (all_upto_spec discount_fraction_ok 50); [vm_compute; reflexivity|lia]).
  unfold discount_fraction_ok in H.
  destruct (Z.eqb_spec c 0) as [->|Hne].
  - left. split; [reflexivity|]. vm_compute. reflexivity.
  - right. apply andb_true_iff in H as [Hp Ho]. apply Z.leb_le in Ho. auto.
Qed.

Lemma dict_get_In {V : Type} (d : list (string * V)) (k : string) (v : V) :
  dict_get d k = Ok v -> In v (map snd d).
Proof.
  induction d as [|[k' v'] d IH]; cbn [dict_get map snd]; [discriminate|].
  destruct (String.eqb k k').
  - intros H; injection H as ->. left; reflexivity.
  - intros H. right. exact (IH H).
Qed.

Lemma gst_rate_facts (c : string) (r : float) :
  dict_get gst_rates c = Ok r -> r = B64.pzero \/ B64.pos_finite r = true.
Proof.
  intros H. apply dict_get_In in H.
  assert (Hall : forallb rate_ok (map snd gst_rates) = true)
    by (vm_compute; reflexivity).
  rewrite forallb_forall in Hall. specialize (Hall r H).
  unfold rate_ok in Hall.
  destruct r as [[]| | |sr mr er]; try discriminate; auto.
Qed.

(** ** The pre-discount price *)

Lemma valid_input_inv (i : PricingInput) :
  valid_input i = true ->
  B64.pos_finite (competitor_price i) = true /\
  known_category (category i) = true /\
  0 <= demand i <= 100 /\ 0 <= stock i <= 100 /\ 0 <= discount i <= 50.
Proof.
  unfold valid_input, in_range, finite_float. intros H.
  repeat match type of H with
  | (_ && _) = true => apply andb_true_iff in H; destruct H as [H ?]
  end.
  repeat match goal with
  | H : (_ && _) = true |- _ => apply andb_true_iff in H; destruct H
  | H : (_ <=? _) = true |- _ => apply Z.leb_le in H
  end.
  repeat split; try assumption.
  destruct (competitor_price i) as [sp|sp| |[] mp ep]; try discriminate.
  assumption.
Qed.

Lemma pricing_pre (i : PricingInput) (b : PricingBreakdown) :
  pricing i = Ok b ->
  pre_gst_price b =
  pre_gst_price_of (competitor_price i) (demand i) (stock i) (seasonal i).
Proof.
  intros H. destruct (pricing_inv i b H).
  rewrite ps_pre_gst_price0, ps_demand_factor0, ps_stock_factor0,
    ps_seasonal_factor0.
  reflexivity.
Qed.

Lemma good_min_float : B64.good B64.min_float = true.
Proof. reflexivity. Qed.

Lemma mul_lower (x y : float) :
  B64.good x = true -> 1 <= B64.ord x -> B64.pos_finite y = true ->
  1 <= B64.ord (B64.mul B64.min_float y) -> 1 <= B64.ord (B64.mul x y).
Proof.
  intros Hx Ho Hy Hm.
  apply Z.le_trans with (1 := Hm).
  apply B64Facts.mul_mono_r; try assumption; try apply good_min_float.
Qed.

Lemma mul_mono (x x' y y' : float) :
  B64.good x = true -> B64.good x' = true ->
  B64.pos_finite y = true -> B64.pos_finite y' = true ->
  B64.ord x <= B64.ord x' -> B64.ord y <= B64.ord y' ->
  B64.ord (B64.mul x y) <= B64.ord (B64.mul x' y').
Proof.
  intros Hx Hx' Hy Hy' Hox Hoy.
  apply Z.le_trans with (B64.ord (B64.mul x' y)).
  - apply B64Facts.mul_mono_r; assumption.
  - apply B64Facts.mul_mono_l; assumption.
Qed.

Lemma pos_finite_ord (x : float) :
  B64.pos_finite x = true -> 1 <= B64.ord x < B64.ord_inf.
Proof.
  intros H. destruct (B64Facts.pos_finite_inv x H) as (m & e & -> & Hv).
  pose proof (B64Facts.ord_finite_bounds false m e Hv). cbn [B64.ord]. lia.
Qed.

Lemma good_finite (x : float) :
  B64.good x = true -> B64.is_finite x = true -> B64.ord x < B64.ord_inf.
Proof.
  intros Hg Hf. unfold B64.good in Hg. apply andb_true_iff in Hg as [Hn Hv].
  destruct x as [[]|[]| |[] m e]; try discriminate; cbn [B64.ord].
  - reflexivity.
  - pose proof (B64Facts.ord_finite_bounds false m e Hv). lia.
Qed.

(** For every valid price and all slider values the pre-discount price is
    a positive number or [+inf]. *)
Lemma pre_gst_price_good (p : float) (d s : Z) (on : bool) :
  B64.pos_finite p = true -> 0 <= d <= 100 -> 0 <= s <= 100 ->
  B64.good (pre_gst_price_of p d s on) = true /\
  1 <= B64.ord (pre_gst_price_of p d s on).
Proof.
  intros Hp Hd Hs.
  destruct (demand_factor_facts d Hd) as (Hdf & Hdm & _).
  destruct (stock_factor_facts s Hs) as (Hsf & Hsm & _).
  destruct (seasonal_factor_facts on) as (Hss & Hsm' & _).
  pose proof (B64Facts.pos_finite_good _ Hp) as Hgp.
  pose proof (pos_finite_ord _ Hp) as [Hop _].
  unfold pre_gst_price_of.
  pose proof (B64Facts.mul_good _ _ Hgp Hdf) as Hga.
  pose proof (mul_lower _ _ Hgp Hop Hdf Hdm) as Hoa.
  pose proof (B64Facts.mul_good _ _ Hga Hsf) as Hgb.
  pose proof (mul_lower _ _ Hga Hoa Hsf Hsm) as Hob.
  split.
  - apply B64Facts.mul_good; assumption.
  - apply mul_lower; assumption.
Qed.


(** ** From the pre-discount price to the final price *)

Lemma mul_pos_finite_pzero (x : float) :
  B64.pos_finite x = true -> B64.mul x B64.pzero = B64.pzero.
Proof.
  intros H. destruct (B64Facts.pos_finite_inv x H) as (m & e & -> & _).
  reflexivity.
Qed.

Lemma price_after_discount_pos (pre : float) (c : Z) :
  B64.pos_finite pre = true -> 0 <= c <= 50 ->
  B64.pos_finite (B64.sub pre (B64.mul pre (discount_fraction_of c))) = true.
Proof.
  intros Hp Hc.
  destruct (discount_fraction_facts c Hc) as [[_ ->]|[Hr Hhalf]].
  - rewrite (mul_pos_finite_pzero pre Hp).
    destruct (B64Facts.pos_finite_inv pre Hp) as (m & e & -> & Hv). exact Hv.
  - pose proof (B64Facts.pos_finite_good _ Hp) as Hgp.
    apply B64Facts.sub_pos; [assumption|apply B64Facts.mul_good; assumption|].
    apply Z.le_lt_trans with (B64.ord (B64.mul pre B64.half)).
    + apply B64Facts.mul_mono_l; try assumption. reflexivity.
    + apply B64Facts.mul_half_lt. assumption.
Qed.


(** * The claims *)

(** ** The tax table *)



(** ** The margin guard *)



(** ** Monotonicity of the pre-discount price *)

Lemma pricing_pre_total (i : PricingInput) :
  known_category (category i) = true ->
  exists b,
    pricing i = Ok b /\
    pre_gst_price b =
    pre_gst_price_of (competitor_price i) (demand i) (stock i) (seasonal i).
Proof.
  intros Hc. destruct (pricing_total i Hc) as [b Hb].
  exists b. split; [exact Hb|apply pricing_pre; exact Hb].
Qed.

Lemma leb_of_ord (x y : float) :
  B64.good x = true -> B64.good y = true ->
  B64.ord x <= B64.ord y -> B64.leb x y = true.
Proof.
  intros Hx Hy H. unfold B64.leb. rewrite (B64Facts.SFleb_ord x y Hx Hy).
  apply Z.leb_le. exact H.
Qed.

(** C3.  All other inputs fixed: a higher demand never gives a lower
    pre-discount price, a higher stock never gives a higher one, and the
    seasonal increase never gives a lower one.  The comparison is that of
    binary64 numbers; a price that overflowed to [+inf] compares as the
    largest. *)
Theorem pre_gst_price_monotone (i : PricingInput) :
  valid_input i = true ->
  (forall d1 d2, 0 <= d1 <= d2 -> d2 <= 100 ->
     exists b1 b2,
       pricing (with_demand i d1) = Ok b1 /\
       pricing (with_demand i d2) = Ok b2 /\
       B64.leb (pre_gst_price b1) (pre_gst_price b2) = true) /\
  (forall s1 s2, 0 <= s1 <= s2 -> s2 <= 100 ->
     exists b1 b2,
       pricing (with_stock i s1) = Ok b1 /\
       pricing (with_stock i s2) = Ok b2 /\
       B64.leb (pre_gst_price b2) (pre_gst_price b1) = true) /\
  (exists b0 b1,
     pricing (with_seasonal i false) = Ok b0 /\
     pricing (with_seasonal i true) = Ok b1 /\
     B64.leb (pre_gst_price b0) (pre_gst_price b1) = true).
Proof.
  intros Hv. destruct (valid_input_inv i Hv) as (Hp & Hc & Hd & Hs & _).
  pose proof (B64Facts.pos_finite_good _ Hp) as Hgp.
  split; [|split].
  - intros d1 d2 H12 H2.
    destruct (pricing_pre_total (with_demand i d1) Hc) as (b1 & Hb1 & E1).
    destruct (pricing_pre_total (with_demand i d2) Hc) as (b2 & Hb2 & E2).
    exists b1, b2. repeat split; try assumption.
    rewrite E1, E2. cbn [with_demand competitor_price demand stock seasonal].
    destruct (demand_factor_facts d1 ltac:(lia)) as (Hf1 & _).
    destruct (demand_factor_facts d2 ltac:(lia)) as (Hf2 & _).
    destruct (stock_factor_facts (stock i) Hs) as (Hsf & _).
    destruct (seasonal_factor_facts (seasonal i)) as (Hss & _).
    apply leb_of_ord;
      try (apply pre_gst_price_good; (assumption || lia)).
    unfold pre_gst_price_of.
    apply B64Facts.mul_mono_r; try assumption;
      try (repeat apply B64Facts.mul_good; assumption).
    apply B64Facts.mul_mono_r; try assumption;
      try (apply B64Facts.mul_good; assumption).
    apply B64Facts.mul_mono_l; try assumption.
    apply demand_factor_increasing; assumption.
  - intros s1 s2 H12 H2.
    destruct (pricing_pre_total (with_stock i s1) Hc) as (b1 & Hb1 & E1).
    destruct (pricing_pre_total (with_stock i s2) Hc) as (b2 & Hb2 & E2).
    exists b1, b2. repeat split; try assumption.
    rewrite E1, E2. cbn [with_stock competitor_price demand stock seasonal].
    destruct (demand_factor_facts (demand i) Hd) as (Hdf & _).
    destruct (stock_factor_facts s1 ltac:(lia)) as (Hf1 & _).
    destruct (stock_factor_facts s2 ltac:(lia)) as (Hf2 & _).
    destruct (seasonal_factor_facts (seasonal i)) as (Hss & _).
    pose proof (B64Facts.mul_good _ _ Hgp Hdf) as Hga.
    apply leb_of_ord;
      try (apply pre_gst_price_good; (assumption || lia)).
    unfold pre_gst_price_of.
    apply B64Facts.mul_mono_r; try assumption;
      try (apply B64Facts.mul_good; assumption).
    apply B64Facts.mul_mono_l; try assumption.
    apply stock_factor_decreasing; assumption.
  - destruct (pricing_pre_total (with_seasonal i false) Hc) as (b0 & Hb0 & E0).
    destruct (pricing_pre_total (with_seasonal i true) Hc) as (b1 & Hb1 & E1).
    exists b0, b1. repeat split; try assumption.
    rewrite E0, E1. cbn [with_seasonal competitor_price demand stock seasonal].
    destruct (demand_factor_facts (demand i) Hd) as (Hdf & _).
    destruct (stock_factor_facts (stock i) Hs) as (Hsf & _).
    pose proof (B64Facts.mul_good _ _ Hgp Hdf) as Hga.
    pose proof (B64Facts.mul_good _ _ Hga Hsf) as Hgb.
    apply leb_of_ord;
      try (apply pre_gst_price_good; assumption).
    unfold pre_gst_price_of.
    apply B64Facts.mul_mono_l; try assumption;
      try (vm_compute; reflexivity).
    vm_compute. discriminate.
Qed.

Lemma pre_gst_price_monotone_witness :
  valid_input scenario_electronics = true /\
  (exists b1 b2,
     pricing (with_demand scenario_electronics 10) = Ok b1 /\
     pricing (with_demand scenario_electronics 90) = Ok b2 /\
     B64.leb (pre_gst_price b1) (pre_gst_price b2) = true) /\
  (exists b1 b2,
     pricing (with_stock scenario_electronics 20) = Ok b1 /\
     pricing (with_stock scenario_electronics 80) = Ok b2 /\
     B64.leb (pre_gst_price b2) (pre_gst_price b1) = true).
Proof.
  split; [vm_compute; reflexivity|].
  split.
  - apply (proj1 (pre_gst_price_monotone scenario_electronics
                    ltac:(vm_compute; reflexivity)) 10 90); lia.
  - apply (proj1 (proj2 (pre_gst_price_monotone scenario_electronics
                           ltac:(vm_compute; reflexivity))) 20 80); lia.
Defined.

(** ** Positivity of the final price *)

(** What a valid input whose pre-discount price did not overflow goes
    through: every intermediate price is a positive number. *)
Lemma finite_pre_gst_price (i : PricingInput) (b : PricingBreakdown) :
  valid_input i = true -> pricing i = Ok b ->
  B64.is_finite (pre_gst_price b) = true ->
  B64.pos_finite (pre_gst_price b) = true /\
  B64.pos_finite (price_after_discount b) = true.
Proof.
  intros Hv Hb Hf. destruct (valid_input_inv i Hv) as (Hp & Hc & Hd & Hs & Hdc).
  pose proof (pricing_pre i b Hb) as E.
  destruct (pre_gst_price_good (competitor_price i) (demand i) (stock i)
              (seasonal i) Hp Hd Hs) as [Hg Ho].
  rewrite <- E in Hg, Ho.
  assert (Hpre : B64.pos_finite (pre_gst_price b) = true).
  { apply B64Facts.good_pos_finite; [exact Hg|].
    pose proof (good_finite _ Hg Hf). lia. }
  split; [exact Hpre|].
  destruct (pricing_inv i b Hb).
  rewrite ps_price_after_discount0, ps_discount_amount0.
  apply price_after_discount_pos; assumption.
Qed.

Lemma overflow_input_valid (c : string) (d : Z) :
  known_category c = true -> in_range 0 50 d = true ->
  valid_input (overflow_input c d) = true.
Proof.
  intros Hc Hd. unfold valid_input.
  cbn [overflow_input competitor_price cost_price category demand stock discount].
  rewrite Hc, Hd. vm_compute. reflexivity.
Qed.




(** ** The discount and tax boundaries *)

(** C6, as stated, fails at the overflowing input: with no discount the
    discount amount is [inf * 0.0], a NaN, which is not zero. *)
Lemma discount_boundary_counterexample : ~ discount_boundary_as_stated.
Proof.
  intros H.
  assert (Hb : exists b,
             pricing (overflow_input "Electronics" 0) = Ok b /\
             B64.eqb (discount_amount b) B64.pzero = false)
    by (eexists; split; vm_compute; reflexivity).
  destruct Hb as (b & Hb & Hne).
  destruct (H _ b (overflow_input_valid "Electronics" 0 eq_refl eq_refl)
              eq_refl Hb) as [Hz _].
  rewrite Hz in Hne. discriminate.
Qed.

(** C6, amended.  For every valid input with no discount whose
    pre-discount price is finite, the discount amount is [+0.0] and the
    price after discount is the pre-discount price. *)
Theorem discount_boundary (i : PricingInput) (b : PricingBreakdown) :
  valid_input i = true -> pricing i = Ok b -> discount i = 0 ->
  B64.is_finite (pre_gst_price b) = true ->
  discount_amount b = B64.pzero /\
  price_after_discount b = pre_gst_price b.
Proof.
  intros Hv Hb Hd Hf.
  destruct (finite_pre_gst_price i b Hv Hb Hf) as [Hpre _].
  destruct (pricing_inv i b Hb).
  assert (Hda : discount_amount b = B64.pzero).
  { rewrite ps_discount_amount0, Hd.
    change (B64.div (B64.of_int 0) (B64.of_int 100)) with B64.pzero.
    apply mul_pos_finite_pzero. exact Hpre. }
  split; [exact Hda|].
  rewrite ps_price_after_discount0, Hda.
  destruct (B64Facts.pos_finite_inv _ Hpre) as (m & e & -> & _). reflexivity.
Qed.

Lemma discount_boundary_witness :
  exists b,
    pricing scenario_electronics = Ok b /\
    discount_amount b = B64.pzero /\
    price_after_discount b = pre_gst_price b.
Proof.
  eexists. split; [vm_compute; reflexivity|].
  apply (discount_boundary scenario_electronics); vm_compute; reflexivity.
Defined.

(** C7, as stated, fails at the overflowing input: the price after
    discount is a NaN and so is the tax amount, whatever the rate. *)
Lemma tax_boundary_counterexample : ~ tax_boundary_as_stated.
Proof.
  intros H.
  assert (Hb : exists b,
             pricing (overflow_input "Essentials" 0) = Ok b /\
             B64.eqb (gst_amount b) B64.pzero = false)
    by (eexists; split; vm_compute; reflexivity).
  destruct Hb as (b & Hb & Hne).
  destruct (H _ b (overflow_input_valid "Essentials" 0 eq_refl eq_refl)
              eq_refl Hb) as [Hz _].
  rewrite Hz in Hne. discriminate.
Qed.

(** C7, amended.  For every valid input of category Essentials whose
    pre-discount price is finite, the tax amount is [+0.0] and the final
    price is the price after discount. *)
Theorem tax_boundary (i : PricingInput) (b : PricingBreakdown) :
  valid_input i = true -> pricing i = Ok b ->
  category i = "Essentials"%string ->
  B64.is_finite (pre_gst_price b) = true ->
  gst_amount b = B64.pzero /\
  final_price b = price_after_discount b.
Proof.
  intros Hv Hb Hc Hf.
  destruct (finite_pre_gst_price i b Hv Hb Hf) as [_ Hpa].
  destruct (pricing_inv i b Hb).
  assert (Hr : gst_rate b = B64.pzero).
  { rewrite Hc in ps_gst_rate0.
    assert (E : dict_get gst_rates "Essentials" = Ok B64.pzero)
      by (vm_compute; reflexivity).
    congruence. }
  assert (Hga : gst_amount b = B64.pzero).
  { rewrite ps_gst_amount0, Hr. apply mul_pos_finite_pzero. exact Hpa. }
  split; [exact Hga|].
  rewrite ps_final_price0, Hga.
  destruct (B64Facts.pos_finite_inv _ Hpa) as (m & e & -> & _). reflexivity.
Qed.

Lemma tax_boundary_witness :
  exists b,
    pricing (inputs_of clearance_widgets) = Ok b /\
    gst_amount b = B64.pzero /\
    final_price b = price_after_discount b.
Proof.
  eexists. split; [vm_compute; reflexivity|].
  apply (tax_boundary (inputs_of clearance_widgets)); vm_compute; reflexivity.
Defined.

(** ** The worked scenarios *)

(** C2, as stated, fails: in the first scenario the pre-discount price
    is not the binary64 number [101.75] but the next one above it. *)
Lemma scenario_values_counterexample :
  ~ scenario_values_as_stated scenario_electronics.
Proof.
  intros (b & Hb & Hpre & _).
  vm_compute in Hb. injection Hb as <-.
  vm_compute in Hpre. discriminate.
Qed.

(** C2, amended.  On the two inputs the calculation returns a breakdown
    whose fields are the stated decimals to within [1e-12]; the margin of
    the first is within [0.01] of 58.35.  The fields are the binary64
    numbers nearest to the decimals, except the pre-discount price, the
    price after discount, the final price and the profit of the first
    scenario and the profit of the second, which are one or two units in
    the last place above them: [101.75000000000001],
    [120.06500000000001], [70.06500000000001] and [33.05600000000001]. *)
Theorem scenario_values :
  (exists b,
     pricing scenario_electronics = Ok b /\
     (demand_factor b = B64.lit 110 2 /\ stock_factor b = B64.lit 925 3 /\
      discount_amount b = B64.pzero /\ gst_amount b = B64.lit 18315 3) /\
     (pre_gst_price b = S754_finite false 7160019720077313 (-46) /\
      B64.lit 10175 2 = S754_finite false 7160019720077312 (-46) /\
      price_after_discount b = pre_gst_price b /\
      final_price b = S754_finite false 8448823269691229 (-46) /\
      B64.lit 120065 3 = S754_finite false 8448823269691228 (-46) /\
      profit b = S754_finite false 4930386060808029 (-46) /\
      B64.lit 70065 3 = S754_finite false 4930386060808028 (-46)) /\
     (close_to (demand_factor b) 110 2 = true /\
      close_to (stock_factor b) 925 3 = true /\
      close_to (pre_gst_price b) 10175 2 = true /\
      close_to (price_after_discount b) 10175 2 = true /\
      close_to (gst_amount b) 18315 3 = true /\
      close_to (final_price b) 120065 3 = true /\
      close_to (profit b) 70065 3 = true) /\
     (exists m, profit_margin b = PyFloat m /\
                B64.within (decimal 1 2) m (decimal 5835 2) = true)) /\
  (exists b,
     pricing (inputs_of clearance_widgets) = Ok b /\
     (demand_factor b = B64.lit 108 2 /\ stock_factor b = B64.lit 88 2 /\
      pre_gst_price b = B64.lit 19008 2 /\
      discount_amount b = B64.lit 57024 3 /\
      price_after_discount b = B64.lit 133056 3 /\
      gst_amount b = B64.pzero /\
      final_price b = B64.lit 133056 3) /\
     (profit b = S754_finite false 4652218415073724 (-47) /\
      B64.lit 33056 3 = S754_finite false 4652218415073722 (-47)) /\
     (close_to (demand_factor b) 108 2 = true /\
      close_to (stock_factor b) 88 2 = true /\
      close_to (pre_gst_price b) 19008 2 = true /\
      close_to (discount_amount b) 57024 3 = true /\
      close_to (price_after_discount b) 133056 3 = true /\
      close_to (final_price b) 133056 3 = true /\
      close_to (profit b) 33056 3 = true)).
Proof.
  split.
  - eexists. split; [vm_compute; reflexivity|].
    repeat match goal with |- _ /\ _ => split end;
      try (vm_compute; reflexivity).
    eexists. split; vm_compute; reflexivity.
  - eexists. split; [vm_compute; reflexivity|].
    repeat match goal with |- _ /\ _ => split end; vm_compute; reflexivity.
Qed.

(** ** The ledger *)

Lemma script_run_history (st st' : SessionState) (w : Widgets)
      (b : PricingBreakdown) :
  script_run st w = Ok (st', b) ->
  pricing (inputs_of w) = Ok b /\
  ledger_all st' = ledger_all st ++ saved_entry w.
Proof.
  unfold script_run, saved_entry.
  destruct (pricing (inputs_of w)) as [b'|e]; cbn [bind]; [|discriminate].
  intros H. injection H as <- <-. split; [reflexivity|].
  unfold ledger_all at 1. cbn [init_history history].
  destruct (ui_save w); [reflexivity|]. rewrite app_nil_r. reflexivity.
Qed.

(** Whatever the runs of a session are, the ledger afterwards is the
    ledger before followed by the rows of the runs that saved, in the order
    of the runs. *)
Lemma script_runs_history (ws : list Widgets) :
  forall st st',
    script_runs st ws = Ok st' ->
    ledger_all st' = ledger_all st ++ flat_map saved_entry ws.
Proof.
  induction ws as [|w ws IH]; intros st st'; cbn [script_runs flat_map].
  - intros H. injection H as <-. rewrite app_nil_r. reflexivity.
  - destruct (script_run st w) as [[st1 b]|e] eqn:Hrun; cbn [bind fst];
      [|discriminate].
    intros H. rewrite (IH _ _ H).
    destruct (script_run_history _ _ _ _ Hrun) as [_ ->].
    rewrite app_assoc. reflexivity.
Qed.

Lemma script_run_total (st : SessionState) (w : Widgets) :
  known_category (ui_category w) = true ->
  exists st' b, script_run st w = Ok (st', b) /\ pricing (inputs_of w) = Ok b.
Proof.
  intros Hc.
  assert (Hc' : known_category (category (inputs_of w)) = true).
  { unfold inputs_of. destruct (scenario_signals w) as [[[d s] on] c]. exact Hc. }
  destruct (pricing_total _ Hc') as [b Hb].
  unfold script_run. rewrite Hb. cbn [bind]. eauto.
Qed.

(** C8.  Appending to the history always succeeds and adds at the end:
    three appends to any list give the list followed by the three entries
    in order.  In the script: three runs that save, from any session
    state, succeed and leave the earlier rows followed by the three new
    rows in the order of the runs; and over any sequence of runs the rows
    already present stay in place, unchanged. *)
Theorem ledger_append_order :
  (forall (h : list LedgerEntry) e1 e2 e3,
     append (append (append h e1) e2) e3 = h ++ [e1; e2; e3]) /\
  (forall st w1 w2 w3,
     known_category (ui_category w1) = true ->
     known_category (ui_category w2) = true ->
     known_category (ui_category w3) = true ->
     ui_save w1 = true -> ui_save w2 = true -> ui_save w3 = true ->
     exists st' b1 b2 b3,
       script_runs st [w1; w2; w3] = Ok st' /\
       pricing (inputs_of w1) = Ok b1 /\
       pricing (inputs_of w2) = Ok b2 /\
       pricing (inputs_of w3) = Ok b3 /\
       ledger_all st' =
       ledger_all st ++ [make_entry w1 b1; make_entry w2 b2; make_entry w3 b3]) /\
  (forall st ws st',
     script_runs st ws = Ok st' ->
     ledger_all st' = ledger_all st ++ flat_map saved_entry ws).
Proof.
  split; [|split].
  - intros h e1 e2 e3. unfold append. rewrite <- !app_assoc. reflexivity.
  - intros st w1 w2 w3 Hc1 Hc2 Hc3 Hs1 Hs2 Hs3.
    destruct (script_run_total st w1 Hc1) as (st1 & b1 & Hr1 & Hb1).
    destruct (script_run_total st1 w2 Hc2) as (st2 & b2 & Hr2 & Hb2).
    destruct (script_run_total st2 w3 Hc3) as (st3 & b3 & Hr3 & Hb3).
    exists st3, b1, b2, b3.
    assert (Hruns : script_runs st [w1; w2; w3] = Ok st3).
    { cbn [script_runs]. rewrite Hr1. cbn [bind fst].
      rewrite Hr2. cbn [bind fst]. rewrite Hr3. reflexivity. }
    repeat split; try assumption.
    rewrite (script_runs_history _ _ _ Hruns).
    cbn [flat_map]. unfold saved_entry.
    rewrite Hs1, Hs2, Hs3, Hb1, Hb2, Hb3. reflexivity.
  - intros st ws st' H. apply script_runs_history. exact H.
Qed.

Lemma ledger_append_order_witness :
  exists st' b1 b2 b3,
    script_runs new_session [lamp_widgets; rice_widgets; watch_widgets]
      = Ok st' /\
    pricing (inputs_of lamp_widgets) = Ok b1 /\
    pricing (inputs_of rice_widgets) = Ok b2 /\
    pricing (inputs_of watch_widgets) = Ok b3 /\
    ledger_all st' =
    ledger_all new_session ++
    [make_entry lamp_widgets b1; make_entry rice_widgets b2;
     make_entry watch_widgets b3].
Proof.
  apply (proj1 (proj2 ledger_append_order)); reflexivity.
Defined.

(** ** Rounding *)



(** ** More on binary64 sums and differences *)

Module B64Order.
Import B64.

(** The rounding of a sum is monotone in the exact sum. *)
Lemma binary_round_mono (D1 D2 : positive) (E1 E2 : Z) :
  dyadic_le (Zpos D1) E1 (Zpos D2) E2 ->
  ord (binary_round prec emax false D1 E1)
  <= ord (binary_round prec emax false D2 E2).
Proof.
  intros Hle.
  destruct (B64Facts.binary_round_spec false D1 E1)
    as (M1 & F1 & HM1 & Hp1 & HF1 & HD1 & _ & _ & ->).
  destruct (B64Facts.binary_round_spec false D2 E2)
    as (M2 & F2 & HM2 & Hp2 & HF2 & HD2 & _ & _ & ->).
  apply Z.min_le_compat_r.
  apply B64Facts.rkey_mono; try assumption.
  set (e0 := Z.min F1 F2).
  apply (B64Facts.dyadic_le_at M1 F1 M2 F2 e0); try (unfold e0; lia).
  apply (B64Facts.dyadic_le_at (Zpos D1) E1 (Zpos D2) E2 e0) in Hle;
    try (unfold e0; lia).
  rewrite HD1, HD2, <- !Z.mul_assoc, <- !Z.pow_add_r by (unfold e0; lia).
  replace (E1 - F1 + (F1 - e0)) with (E1 - e0) by lia.
  replace (E2 - F2 + (F2 - e0)) with (E2 - e0) by lia.
  exact Hle.
Qed.

Lemma dyadic_le_refl (M E : Z) : dyadic_le M E M E.
Proof. unfold dyadic_le. lia. Qed.

(** A well-formed number is the rounding of itself. *)
Lemma binary_round_valid (m : positive) (e : Z) :
  valid_binary prec emax (S754_finite false m e) = true ->
  ord (binary_round prec emax false m e) = key e (Zpos m).
Proof.
  intros Hv.
  destruct (B64Facts.binary_round_spec false m e)
    as (M & F & HM & Hp & HF & HD & _ & _ & ->).
  destruct (B64Facts.valid_finite_bounds false m e Hv) as (_ & _ & _ & Hc).
  pose proof (B64Facts.ord_finite_bounds false m e Hv) as Hb.
  rewrite <- (B64Facts.rkey_valid false m e Hv) in *.
  assert (Heq : rkey M F = rkey (Zpos m) e).
  { apply Z.le_antisymm; apply B64Facts.rkey_mono; try lia.
    - apply (B64Facts.dyadic_le_at M F (Zpos m) e F); try lia.
      rewrite Z.sub_diag, Z.pow_0_r, HD. lia.
    - apply (B64Facts.dyadic_le_at (Zpos m) e M F F); try lia.
      rewrite Z.sub_diag, Z.pow_0_r, HD. lia. }
  rewrite Heq. lia.
Qed.

(** The exact sum and the exact difference behind [add] and [sub]. *)
Lemma add_finite_eq (mx my : positive) (ex ey : Z) :
  exists D,
    add (S754_finite false mx ex) (S754_finite false my ey)
    = binary_round prec emax false D (Z.min ex ey) /\
    Zpos D = Zpos mx * 2 ^ (ex - Z.min ex ey) + Zpos my * 2 ^ (ey - Z.min ex ey).
Proof.
  unfold add. cbn [SFadd cond_Zopp].
  pose proof (B64Facts.shl_align_spec mx ex (Z.min ex ey)) as [_ Hmx].
  pose proof (B64Facts.shl_align_spec my ey (Z.min ex ey)) as [_ Hmy].
  replace (Z.min ex (Z.min ex ey)) with (Z.min ex ey) in Hmx by lia.
  replace (Z.min ey (Z.min ex ey)) with (Z.min ex ey) in Hmy by lia.
  rewrite <- Hmx, <- Hmy.
  remember (Zpos (fst (shl_align mx ex (Z.min ex ey)))
            + Zpos (fst (shl_align my ey (Z.min ex ey)))) as D0 eqn:ED.
  destruct D0 as [|D|D]; try lia.
  exists D. split; reflexivity.
Qed.

Lemma sub_finite_eq (mx my : positive) (ex ey : Z) :
  let d := Zpos mx * 2 ^ (ex - Z.min ex ey) - Zpos my * 2 ^ (ey - Z.min ex ey) in
  sub (S754_finite false mx ex) (S754_finite false my ey)
  = binary_normalize prec emax d (Z.min ex ey) false.
Proof.
  unfold sub. cbn [SFsub cond_Zopp].
  pose proof (B64Facts.shl_align_spec mx ex (Z.min ex ey)) as [_ Hmx].
  pose proof (B64Facts.shl_align_spec my ey (Z.min ex ey)) as [_ Hmy].
  replace (Z.min ex (Z.min ex ey)) with (Z.min ex ey) in Hmx by lia.
  replace (Z.min ey (Z.min ex ey)) with (Z.min ex ey) in Hmy by lia.
  cbv zeta. rewrite <- Hmx, <- Hmy. reflexivity.
Qed.

(** The sign asked of a rounding is the only place where it matters. *)
Lemma binary_round_opp (m : positive) (e : Z) :
  binary_round prec emax true m e
  = SFopp (binary_round prec emax false m e).
Proof.
  unfold binary_round. destruct (shl_align m e _) as [mz ez].
  unfold binary_round_aux.
  destruct (shr_fexp prec emax (Zpos mz) ez loc_Exact) as [mrs1 e1].
  destruct (shr_fexp prec emax _ e1 loc_Exact) as [mrs2 e2].
  destruct (shr_m mrs2); try reflexivity.
  destruct (e2 <=? emax - prec); reflexivity.
Qed.

(** A sum is at least its first term. *)
Lemma add_ge (x y : float) :
  pos_finite x = true -> good y = true -> ord x <= ord (add x y).
Proof.
  intros Hx Hy. destruct (B64Facts.pos_finite_inv x Hx) as (mx & ex & -> & Hvx).
  pose proof (B64Facts.ord_finite_bounds false mx ex Hvx) as Hox.
  unfold good in Hy. apply andb_true_iff in Hy as [Hny Hvy].
  destruct y as [[]|[]| |[] my ey]; try discriminate.
  - apply Z.le_refl.
  - cbn [ord] in *. change (add (S754_finite false mx ex) (S754_infinity false))
      with (S754_infinity false). cbn [ord]. lia.
  - destruct (add_finite_eq mx my ex ey) as (D & -> & HD).
    cbn [ord]. rewrite <- (binary_round_valid mx ex Hvx).
    apply binary_round_mono.
    apply (B64Facts.dyadic_le_at (Zpos mx) ex (Zpos D) (Z.min ex ey) (Z.min ex ey));
      try lia.
    rewrite Z.sub_diag, Z.pow_0_r, HD.
    assert (0 <= Zpos my * 2 ^ (ey - Z.min ex ey))
      by (apply Z.mul_nonneg_nonneg; [lia|apply Z.pow_nonneg; lia]).
    lia.
Qed.

(** Addition of nonnegative numbers is monotone in both terms. *)
Lemma add_mono (x x' y y' : float) :
  pos_finite x = true -> pos_finite x' = true ->
  pos_finite y = true -> pos_finite y' = true ->
  ord x <= ord x' -> ord y <= ord y' ->
  ord (add x y) <= ord (add x' y').
Proof.
  intros Hx Hx' Hy Hy' Hox Hoy.
  destruct (B64Facts.pos_finite_inv x Hx) as (mx & ex & -> & Hvx).
  destruct (B64Facts.pos_finite_inv x' Hx') as (mx' & ex' & -> & Hvx').
  destruct (B64Facts.pos_finite_inv y Hy) as (my & ey & -> & Hvy).
  destruct (B64Facts.pos_finite_inv y' Hy') as (my' & ey' & -> & Hvy').
  cbn [ord] in Hox, Hoy.
  pose proof (B64Facts.key_le_dyadic mx mx' ex ex' false false Hvx Hvx' Hox) as Hdx.
  pose proof (B64Facts.key_le_dyadic my my' ey ey' false false Hvy Hvy' Hoy) as Hdy.
  destruct (add_finite_eq mx my ex ey) as (D & -> & HD).
  destruct (add_finite_eq mx' my' ex' ey') as (D' & -> & HD').
  apply binary_round_mono.
  set (ez := Z.min ex ey) in *. set (ez' := Z.min ex' ey') in *.
  set (e0 := Z.min ez ez').
  apply (B64Facts.dyadic_le_at (Zpos D) ez (Zpos D') ez' e0); try (unfold e0; lia).
  apply (B64Facts.dyadic_le_at (Zpos mx) ex (Zpos mx') ex' e0) in Hdx;
    try (unfold e0, ez, ez'; lia).
  apply (B64Facts.dyadic_le_at (Zpos my) ey (Zpos my') ey' e0) in Hdy;
    try (unfold e0, ez, ez'; lia).
  rewrite HD, HD', !Z.mul_add_distr_r, <- !Z.mul_assoc, <- !Z.pow_add_r
    by (unfold e0, ez, ez'; lia).
  replace (ex - ez + (ez - e0)) with (ex - e0) by lia.
  replace (ey - ez + (ez - e0)) with (ey - e0) by lia.
  replace (ex' - ez' + (ez' - e0)) with (ex' - e0) by lia.
  replace (ey' - ez' + (ez' - e0)) with (ey' - e0) by lia.
  lia.
Qed.

(** A difference of nonnegative numbers is at most its first term. *)
Lemma sub_le (x y : float) :
  pos_finite x = true -> good y = true -> ord y < ord x ->
  ord (sub x y) <= ord x.
Proof.
  intros Hx Hy Hlt. destruct (B64Facts.pos_finite_inv x Hx) as (mx & ex & -> & Hvx).
  pose proof (B64Facts.ord_finite_bounds false mx ex Hvx) as Hox.
  unfold good in Hy. apply andb_true_iff in Hy as [Hny Hvy].
  destruct y as [[]|[]| |[] my ey]; try discriminate.
  - apply Z.le_refl.
  - cbn [ord] in Hlt. lia.
  - cbn [ord] in Hlt.
    pose proof (B64Facts.key_lt_dyadic my mx ey ex false false Hvy Hvx Hlt) as Hd.
    rewrite Z.min_comm in Hd.
    rewrite sub_finite_eq. cbv zeta.
    remember (Zpos mx * 2 ^ (ex - Z.min ex ey) - Zpos my * 2 ^ (ey - Z.min ex ey))
      as D0 eqn:ED.
    destruct D0 as [|D|D]; try lia. cbn [binary_normalize ord].
    rewrite <- (binary_round_valid mx ex Hvx).
    apply binary_round_mono.
    apply (B64Facts.dyadic_le_at (Zpos D) (Z.min ex ey) (Zpos mx) ex (Z.min ex ey));
      try lia.
    rewrite Z.sub_diag, Z.pow_0_r.
    assert (0 <= Zpos my * 2 ^ (ey - Z.min ex ey))
      by (apply Z.mul_nonneg_nonneg; [lia|apply Z.pow_nonneg; lia]).
    lia.
Qed.

(** Two well-formed positive numbers of the same bit pattern are the same
    number. *)
Lemma ord_inj (x y : float) :
  pos_finite x = true -> pos_finite y = true -> ord x = ord y -> x = y.
Proof.
  intros Hx Hy H.
  destruct (B64Facts.pos_finite_inv x Hx) as (mx & ex & -> & Hvx).
  destruct (B64Facts.pos_finite_inv y Hy) as (my & ey & -> & Hvy).
  destruct (B64Facts.valid_finite_bounds false mx ex Hvx) as (Hex & Hmx & Hnx & _).
  destruct (B64Facts.valid_finite_bounds false my ey Hvy) as (Hey & Hmy & Hny & _).
  cbn [ord] in H. unfold key in H.
  rewrite B64Facts.pow2_52, B64Facts.pow2_53 in *.
  destruct (Z.lt_trichotomy ex ey) as [Hlt|[Heq|Hgt]].
  - specialize (Hny ltac:(lia)). nia.
  - subst ey. assert (Zpos mx = Zpos my) by lia. congruence.
  - specialize (Hnx ltac:(lia)). nia.
Qed.

(** The sign of a difference of positive numbers is the order of its
    terms. *)
Lemma sub_sign (x y : float) :
  pos_finite x = true -> pos_finite y = true ->
  (ord y < ord x -> pos_finite (sub x y) = true) /\
  (ord y = ord x -> sub x y = pzero) /\
  (ord x < ord y -> pos_finite (SFopp (sub x y)) = true).
Proof.
  intros Hx Hy. split; [|split].
  - intros H. apply B64Facts.sub_pos;
      [assumption|apply B64Facts.pos_finite_good; assumption|exact H].
  - intros H. rewrite (ord_inj y x Hy Hx H).
    destruct (B64Facts.pos_finite_inv x Hx) as (mx & ex & -> & Hvx).
    rewrite sub_finite_eq. cbv zeta. rewrite Z.sub_diag. reflexivity.
  - intros H.
    pose proof (B64Facts.sub_pos y x Hy (B64Facts.pos_finite_good _ Hx) H) as Hp.
    destruct (B64Facts.pos_finite_inv x Hx) as (mx & ex & -> & Hvx).
    destruct (B64Facts.pos_finite_inv y Hy) as (my & ey & -> & Hvy).
    cbn [ord] in H.
    pose proof (B64Facts.key_lt_dyadic mx my ex ey false false Hvx Hvy H) as Hd.
    rewrite sub_finite_eq in Hp |- *. cbv zeta in Hp |- *.
    rewrite (Z.min_comm ey ex) in Hp.
    remember (Zpos mx * 2 ^ (ex - Z.min ex ey) - Zpos my * 2 ^ (ey - Z.min ex ey))
      as D0 eqn:ED.
    remember (Zpos my * 2 ^ (ey - Z.min ex ey) - Zpos mx * 2 ^ (ex - Z.min ex ey))
      as D1 eqn:ED1.
    destruct D0 as [|D|D]; try lia.
    destruct D1 as [|D'|D']; try lia.
    assert (D' = D) as -> by lia.
    cbn [binary_normalize] in Hp |- *.
    rewrite binary_round_opp.
    destruct (binary_round prec emax false D (Z.min ex ey)) as [[]|[]| |[] m e];
      try discriminate; exact Hp.
Qed.

End B64Order.

(** * Further properties of the script *)

(** ** The widgets *)

Lemma leb_one_positive (p : float) :
  B64.leb (B64.lit 10 1) p = true -> B64.ltb B64.pzero p = true.
Proof.
  change (B64.lit 10 1) with (S754_finite false 4503599627370496 (-52)).
  destruct p as [s|[]| |[] m e]; cbn; intros H; try discriminate; reflexivity.
Qed.

Lemma scenario_signals_cases (w : Widgets) :
  (reads_sliders w = true /\
   scenario_signals w = (ui_demand w, ui_stock w, ui_seasonal w, ui_discount w)) \/
  (reads_sliders w = false /\
   (scenario_signals w = (90, 20, false, 0) \/
    scenario_signals w = (40, 80, false, 30) \/
    scenario_signals w = (70, 50, true, 10))).
Proof.
  unfold reads_sliders, scenario_signals.
  destruct (String.eqb (ui_scenario w) "High Demand, Low Stock");
    [right; split; [reflexivity|auto]|].
  destruct (String.eqb (ui_scenario w) "Clearance Sale");
    [right; split; [reflexivity|auto]|].
  destruct (String.eqb (ui_scenario w) "Festive Boost");
    [right; split; [reflexivity|auto]|].
  left. split; reflexivity.
Qed.

(** X1.  Whatever the widgets return within their own constraints, and
    whichever scenario is chosen, the calculation receives an input of the
    documented domain: the three presets lie within the slider ranges. *)
Theorem widgets_give_valid_input (w : Widgets) :
  valid_widgets w = true -> valid_input (inputs_of w) = true.
Proof.
  unfold valid_widgets. intros H.
  repeat match type of H with
  | (_ && _) = true => apply andb_true_iff in H; destruct H as [H ?]
  end.
  assert (Hpos : B64.ltb B64.pzero (ui_competitor_price w) = true)
    by (apply leb_one_positive; assumption).
  assert (Hsig : let '(d, s, _, c) := scenario_signals w in
                 in_range 0 100 d && in_range 0 100 s && in_range 0 50 c = true).
  { destruct (scenario_signals_cases w) as [[Hr ->]|[Hr [->|[->| ->]]]];
      try reflexivity.
    rewrite Hr in *. assumption. }
  unfold inputs_of, valid_input.
  destruct (scenario_signals w) as [[[d s] on] c].
  cbn [competitor_price cost_price category demand stock discount].
  apply andb_true_iff in Hsig as [Hsig Hc].
  apply andb_true_iff in Hsig as [Hd Hs].
  unfold known_category.
  change (B64.lit 0 1) with B64.pzero in *.
  match goal with
  | Hf : finite_float (ui_competitor_price w) = true,
    Hg : finite_float (ui_cost_price w) = true,
    Hk : existsb _ (dict_keys gst_rates) = true,
    Hz : B64.leb B64.pzero (ui_cost_price w) = true |- _ =>
      rewrite Hf, Hg, Hk, Hz, Hpos, Hd, Hs, Hc
  end.
  reflexivity.
Qed.

Lemma widgets_give_valid_input_witness :
  valid_input (inputs_of rice_widgets) = true.
Proof.
  apply (widgets_give_valid_input rice_widgets). vm_compute. reflexivity.
Defined.

(** X2.  Under a preset the sliders and the checkbox play no part: a run
    with any other slider values leaves the same state and shows the same
    breakdown.  Under Custom the four signals are the slider values. *)
Theorem preset_ignores_sliders (st : SessionState) (w : Widgets)
        (d s : Z) (on : bool) (c : Z) :
  (reads_sliders w = false ->
   script_run st (with_sliders w d s on c) = script_run st w) /\
  (reads_sliders w = true ->
   inputs_of (with_sliders w d s on c) =
   {| competitor_price := ui_competitor_price w;
      cost_price := ui_cost_price w;
      category := ui_category w;
      demand := d;
      stock := s;
      seasonal := on;
      discount := c |}).
Proof.
  unfold reads_sliders. split; intros H.
  - apply negb_false_iff in H.
    assert (Hin : inputs_of (with_sliders w d s on c) = inputs_of w).
    { unfold inputs_of, scenario_signals.
      cbn [with_sliders ui_scenario ui_demand ui_stock ui_seasonal ui_discount
           ui_competitor_price ui_cost_price ui_category].
      destruct (String.eqb (ui_scenario w) "High Demand, Low Stock");
        [reflexivity|].
      destruct (String.eqb (ui_scenario w) "Clearance Sale"); [reflexivity|].
      destruct (String.eqb (ui_scenario w) "Festive Boost"); [reflexivity|].
      discriminate. }
    unfold script_run. rewrite Hin. reflexivity.
  - apply negb_true_iff in H.
    unfold inputs_of, scenario_signals.
    cbn [with_sliders ui_scenario ui_demand ui_stock ui_seasonal ui_discount
         ui_competitor_price ui_cost_price ui_category].
    destruct (String.eqb (ui_scenario w) "High Demand, Low Stock");
      [discriminate|].
    destruct (String.eqb (ui_scenario w) "Clearance Sale"); [discriminate|].
    destruct (String.eqb (ui_scenario w) "Festive Boost"); [discriminate|].
    reflexivity.
Qed.

Lemma preset_ignores_sliders_witness :
  script_run new_session (with_sliders rice_widgets 7 93 true 45)
  = script_run new_session rice_widgets.
Proof.
  apply (proj1 (preset_ignores_sliders new_session rice_widgets 7 93 true 45)).
  reflexivity.
Defined.

(** ** The table as a dict *)

Lemma dict_get_not_key {V : Type} (d : list (string * V)) (k : string) (v : V) :
  dict_get d k = Ok v -> In k (dict_keys d).
Proof.
  induction d as [|[k' v'] d IH]; cbn [dict_get dict_keys map fst];
    [discriminate|].
  destruct (String.eqb_spec k k') as [->|Hne]; [left; reflexivity|].
  intros H. right. exact (IH H).
Qed.

(** With distinct keys the lookup returns [v] at [k] exactly when
    [(k, v)] is an entry, and raises [KeyError] exactly off the keys. *)
Lemma dict_get_entry {V : Type} (d : list (string * V)) (k : string) (v : V) :
  NoDup (dict_keys d) -> (dict_get d k = Ok v <-> In (k, v) d).
Proof.
  induction d as [|[k' v'] d IH]; cbn [dict_get dict_keys map fst]; intros Hnd.
  - split; [discriminate|intros []].
  - inversion Hnd as [|? ? Hnotin Hnd']; subst.
    destruct (String.eqb_spec k k') as [->|Hne].
    + split.
      * intros H; injection H as ->. left; reflexivity.
      * intros [H|H]; [injection H as ->; reflexivity|].
        exfalso. apply Hnotin. apply (in_map fst) in H. exact H.
    + rewrite (IH Hnd'). split.
      * intros H. right; exact H.
      * intros [H|H]; [congruence|exact H].
Qed.

Lemma dict_get_missing {V : Type} (d : list (string * V)) (k : string) :
  ~ In k (dict_keys d) -> dict_get d k = Raise (KeyError k).
Proof.
  induction d as [|[k' v'] d IH]; cbn [dict_get dict_keys map fst]; intros H.
  - reflexivity.
  - destruct (String.eqb_spec k k') as [->|Hne]; [exfalso; apply H; left; reflexivity|].
    apply IH. intros Hin. apply H. right. exact Hin.
Qed.

(** X3.  The six categories of the table are distinct, so the lookup of
    line 57 returns a rate exactly for the entries of the table, whatever
    their order, and raises [KeyError] for any other string; every rate
    lies between 0 and 0.28. *)
Theorem gst_rates_lookup :
  NoDup (dict_keys gst_rates) /\
  (forall c r, dict_get gst_rates c = Ok r <-> In (c, r) gst_rates) /\
  (forall c, ~ In c (dict_keys gst_rates) ->
             dict_get gst_rates c = Raise (KeyError c)) /\
  (forall c r, dict_get gst_rates c = Ok r ->
               B64.leb B64.pzero r = true /\ B64.leb r (B64.lit 28 2) = true).
Proof.
  assert (Hnd : NoDup (dict_keys gst_rates)).
  { unfold gst_rates. cbn [dict_keys map fst].
    repeat (constructor; [cbn [In]; intros H;
      repeat (destruct H as [H|H]; [discriminate H|]); exact H|]).
    constructor. }
  split; [exact Hnd|]. split; [|split].
  - intros c r. apply dict_get_entry. exact Hnd.
  - intros c. apply dict_get_missing.
  - intros c r H. apply dict_get_In in H.
    assert (Hall : forallb (fun r => B64.leb B64.pzero r && B64.leb r (B64.lit 28 2))
                     (map snd gst_rates) = true) by (vm_compute; reflexivity).
    rewrite forallb_forall in Hall. specialize (Hall r H).
    apply andb_true_iff in Hall. exact Hall.
Qed.

Lemma gst_rates_lookup_witness :
  B64.leb B64.pzero (B64.lit 18 2) = true /\
  B64.leb (B64.lit 18 2) (B64.lit 28 2) = true.
Proof.
  apply (proj2 (proj2 (proj2 gst_rates_lookup)) "Electronics"%string).
  reflexivity.
Defined.

(** ** Order of the prices *)

Lemma ltb_of_ord (x y : float) :
  B64.good x = true -> B64.good y = true ->
  B64.ord x < B64.ord y -> B64.ltb x y = true.
Proof.
  intros Hx Hy H. unfold B64.ltb. rewrite (B64Facts.SFltb_ord x y Hx Hy).
  apply Z.ltb_lt. exact H.
Qed.

(** The pre-discount price is monotone in its three factors. *)
Lemma pre_gst_price_of_mono (p : float) (d s d' s' : Z) (on on' : bool) :
  B64.pos_finite p = true ->
  0 <= d <= 100 -> 0 <= s <= 100 -> 0 <= d' <= 100 -> 0 <= s' <= 100 ->
  B64.ord (demand_factor_of d) <= B64.ord (demand_factor_of d') ->
  B64.ord (stock_factor_of s) <= B64.ord (stock_factor_of s') ->
  B64.ord (to_float (seasonal_factor_of on))
    <= B64.ord (to_float (seasonal_factor_of on')) ->
  B64.ord (pre_gst_price_of p d s on) <= B64.ord (pre_gst_price_of p d' s' on').
Proof.
  intros Hp Hd Hs Hd' Hs' Hdf Hsf Hss.
  pose proof (B64Facts.pos_finite_good _ Hp) as Hgp.
  destruct (demand_factor_facts d Hd) as (Fd & _).
  destruct (demand_factor_facts d' Hd') as (Fd' & _).
  destruct (stock_factor_facts s Hs) as (Fs & _).
  destruct (stock_factor_facts s' Hs') as (Fs' & _).
  destruct (seasonal_factor_facts on) as (Fo & _).
  destruct (seasonal_factor_facts on') as (Fo' & _).
  pose proof (B64Facts.mul_good _ _ Hgp Fd) as Ga.
  pose proof (B64Facts.mul_good _ _ Hgp Fd') as Ga'.
  pose proof (B64Facts.mul_good _ _ Ga Fs) as Gb.
  pose proof (B64Facts.mul_good _ _ Ga' Fs') as Gb'.
  unfold pre_gst_price_of.
  refine (mul_mono _ _ _ _ Gb Gb' Fo Fo' _ Hss).
  refine (mul_mono _ _ _ _ Ga Ga' Fs Fs' _ Hsf).
  exact (mul_mono _ _ _ _ Hgp Hgp Fd Fd' (Z.le_refl _) Hdf).
Qed.

(** X4.  Whatever the signals, the pre-discount price lies between the
    price at the lowest factors (no demand, full stock, no seasonal
    increase) and the price at the highest ones (full demand, no stock,
    seasonal increase). *)
Theorem pre_gst_price_extremes (i : PricingInput) (b : PricingBreakdown) :
  valid_input i = true -> pricing i = Ok b ->
  B64.leb (pre_gst_price_of (competitor_price i) 0 100 false)
          (pre_gst_price b) = true /\
  B64.leb (pre_gst_price b)
          (pre_gst_price_of (competitor_price i) 100 0 true) = true.
Proof.
  intros Hv Hb. destruct (valid_input_inv i Hv) as (Hp & _ & Hd & Hs & _).
  rewrite (pricing_pre i b Hb).
  destruct (seasonal_factor_facts (seasonal i)) as (_ & _ & Hlo & Hhi).
  assert (H0 : 0 <= 0 <= 100) by lia. assert (H100 : 0 <= 100 <= 100) by lia.
  destruct (pre_gst_price_good _ 0 100 false Hp H0 H100) as [G0 _].
  destruct (pre_gst_price_good _ (demand i) (stock i) (seasonal i) Hp Hd Hs)
    as [G _].
  destruct (pre_gst_price_good _ 100 0 true Hp H100 H0) as [G1 _].
  split.
  - apply (leb_of_ord _ _ G0 G).
    apply pre_gst_price_of_mono; try assumption.
    + apply demand_factor_increasing; lia.
    + apply stock_factor_decreasing; lia.
  - apply (leb_of_ord _ _ G G1).
    apply pre_gst_price_of_mono; try assumption.
    + apply demand_factor_increasing; lia.
    + apply stock_factor_decreasing; lia.
Qed.

Lemma pre_gst_price_extremes_witness :
  exists b,
    pricing scenario_electronics = Ok b /\
    B64.leb (pre_gst_price_of (competitor_price scenario_electronics) 0 100 false)
            (pre_gst_price b) = true /\
    B64.leb (pre_gst_price b)
            (pre_gst_price_of (competitor_price scenario_electronics) 100 0 true)
      = true.
Proof.
  eexists. split; [vm_compute; reflexivity|].
  apply (pre_gst_price_extremes scenario_electronics); vm_compute; reflexivity.
Defined.

(** The discount amount and the tax amount of a valid input whose
    pre-discount price is finite. *)
Lemma discount_and_tax (i : PricingInput) (b : PricingBreakdown) :
  valid_input i = true -> pricing i = Ok b ->
  B64.is_finite (pre_gst_price b) = true ->
  B64.pos_finite (pre_gst_price b) = true /\
  B64.pos_finite (price_after_discount b) = true /\
  (B64.good (discount_amount b) = true /\
   B64.ord (discount_amount b) < B64.ord (pre_gst_price b)) /\
  B64.good (gst_amount b) = true.
Proof.
  intros Hv Hb Hf. destruct (valid_input_inv i Hv) as (_ & _ & _ & _ & Hc).
  destruct (finite_pre_gst_price i b Hv Hb Hf) as [Hpre Hpad].
  destruct (pricing_inv i b Hb)
    as [Edf Esf Ess Erate Epre Eda Epad Ega Efin Eprofit Emargin].
  pose proof (gst_rate_facts _ _ Erate) as Hr.
  pose proof (pos_finite_ord _ Hpre) as [Hopre _].
  repeat split; try assumption.
  - rewrite Eda. fold (discount_fraction_of (discount i)).
    destruct (discount_fraction_facts _ Hc) as [[_ ->]|[Hfr _]].
    + rewrite (mul_pos_finite_pzero _ Hpre). reflexivity.
    + apply B64Facts.mul_good; [apply B64Facts.pos_finite_good|]; assumption.
  - rewrite Eda. fold (discount_fraction_of (discount i)).
    destruct (discount_fraction_facts _ Hc) as [[_ ->]|[Hfr Hhalf]].
    + rewrite (mul_pos_finite_pzero _ Hpre). cbn [B64.ord B64.pzero]. lia.
    + apply Z.le_lt_trans with (B64.ord (B64.mul (pre_gst_price b) B64.half)).
      * apply B64Facts.mul_mono_l; try assumption;
          [apply B64Facts.pos_finite_good; assumption|reflexivity].
      * apply B64Facts.mul_half_lt. assumption.
  - rewrite Ega. destruct Hr as [->|Hr].
    + rewrite (mul_pos_finite_pzero _ Hpad). reflexivity.
    + apply B64Facts.mul_good; [apply B64Facts.pos_finite_good|]; assumption.
Qed.

(** X5.  For a valid input whose pre-discount price is finite: the
    discount amount is at least zero and less than the pre-discount price;
    the price after discount is positive and at most the pre-discount
    price; the tax amount is at least zero and the final price at least
    the price after discount.  So the wedge sizes of the pie chart are
    never negative and the bars of the comparison chart are positive. *)
Theorem price_chain (i : PricingInput) (b : PricingBreakdown) :
  valid_input i = true -> pricing i = Ok b ->
  B64.is_finite (pre_gst_price b) = true ->
  (B64.leb B64.pzero (discount_amount b) = true /\
   B64.ltb (discount_amount b) (pre_gst_price b) = true) /\
  (B64.ltb B64.pzero (price_after_discount b) = true /\
   B64.leb (price_after_discount b) (pre_gst_price b) = true) /\
  (B64.leb B64.pzero (gst_amount b) = true /\
   B64.leb (price_after_discount b) (final_price b) = true) /\
  Forall (fun x => B64.leb B64.pzero x = true) (sizes b) /\
  Forall (fun x => B64.ltb B64.pzero x = true) (comparison_prices i b).
Proof.
  intros Hv Hb Hf.
  destruct (discount_and_tax i b Hv Hb Hf) as (Hpre & Hpad & [Hgda Hoda] & Hgga).
  destruct (valid_input_inv i Hv) as (Hp & _).
  destruct (pricing_inv i b Hb)
    as [Edf Esf Ess Erate Epre Eda Epad Ega Efin Eprofit Emargin].
  pose proof (B64Facts.pos_finite_good _ Hpre) as Hgpre.
  pose proof (B64Facts.pos_finite_good _ Hpad) as Hgpad.
  pose proof (B64Facts.pos_finite_good _ Hp) as Hgp.
  pose proof (pos_finite_ord _ Hpre) as [Hopre _].
  pose proof (pos_finite_ord _ Hpad) as [Hopad _].
  pose proof (pos_finite_ord _ Hp) as [Hop _].
  pose proof (B64Facts.good_ord_bounds _ Hgda) as [Hda0 _].
  pose proof (B64Facts.good_ord_bounds _ Hgga) as [Hga0 _].
  assert (Hgz : B64.good B64.pzero = true) by reflexivity.
  assert (Hfin : B64.good (final_price b) = true /\ 0 < B64.ord (final_price b)).
  { rewrite Efin. apply B64Facts.add_pos; assumption. }
  destruct Hfin as [Hgfin Hofin].
  assert (H1 : B64.leb B64.pzero (discount_amount b) = true)
    by (apply leb_of_ord; assumption).
  assert (H2 : B64.ltb B64.pzero (price_after_discount b) = true)
    by (apply ltb_of_ord; try assumption; cbn [B64.ord B64.pzero]; lia).
  assert (H3 : B64.leb B64.pzero (gst_amount b) = true)
    by (apply leb_of_ord; assumption).
  repeat match goal with |- _ /\ _ => split end; try assumption.
  - apply ltb_of_ord; assumption.
  - apply leb_of_ord; try assumption.
    rewrite Epad. apply B64Order.sub_le; assumption.
  - apply leb_of_ord; try assumption.
    rewrite Efin. apply B64Order.add_ge; assumption.
  - unfold sizes. repeat constructor; try assumption.
    apply leb_of_ord; try assumption. cbn [B64.ord B64.pzero]. lia.
  - unfold comparison_prices. repeat constructor;
      apply ltb_of_ord; try assumption; cbn [B64.ord B64.pzero]; lia.
Qed.

Lemma price_chain_witness :
  exists b,
    pricing (inputs_of rice_widgets) = Ok b /\
    B64.ltb (discount_amount b) (pre_gst_price b) = true /\
    B64.leb (price_after_discount b) (pre_gst_price b) = true /\
    B64.leb (price_after_discount b) (final_price b) = true.
Proof.
  eexists. split; [vm_compute; reflexivity|].
  match goal with
  | |- B64.ltb (discount_amount ?b) _ = true /\ _ =>
      destruct (price_chain (inputs_of rice_widgets) b
                  ltac:(vm_compute; reflexivity) ltac:(vm_compute; reflexivity)
                  ltac:(vm_compute; reflexivity))
        as ([_ H1] & [_ H2] & [_ H3] & _)
  end.
  auto.
Defined.

(** ** The profit *)

(** The cost price of a valid input: a zero or a positive number. *)
Lemma cost_price_shape (i : PricingInput) :
  valid_input i = true ->
  B64.is_zero (cost_price i) = true \/ B64.pos_finite (cost_price i) = true.
Proof.
  unfold valid_input, finite_float. intros H.
  repeat match type of H with
  | (_ && _) = true => apply andb_true_iff in H; destruct H as [H ?]
  end.
  repeat match goal with
  | H : (_ && _) = true |- _ => apply andb_true_iff in H; destruct H
  end.
  destruct (cost_price i) as [s|s| |[] m e]; try discriminate; auto.
Qed.

(** The final price of a valid input whose pre-discount price is finite:
    a positive number or [+inf]. *)
Lemma final_price_shape (i : PricingInput) (b : PricingBreakdown) :
  valid_input i = true -> pricing i = Ok b ->
  B64.is_finite (pre_gst_price b) = true ->
  final_price b = S754_infinity false \/ B64.pos_finite (final_price b) = true.
Proof.
  intros Hv Hb Hf.
  destruct (discount_and_tax i b Hv Hb Hf) as (_ & Hpad & _ & Hgga).
  destruct (pricing_inv i b Hb)
    as [Edf Esf Ess Erate Epre Eda Epad Ega Efin Eprofit Emargin].
  destruct (B64Facts.add_pos _ _ Hpad Hgga) as [Hg Ho].
  rewrite <- Efin in Hg, Ho.
  unfold B64.good in Hg. apply andb_true_iff in Hg as [Hn Hval].
  destruct (final_price b) as [[]|[]| |[] m e]; try discriminate; auto;
    cbn [B64.ord] in Ho; lia.
Qed.

(** X6.  For a valid input whose pre-discount price is finite the profit
    has the sign of the comparison of the final price with the cost
    price: positive when the cost is lower, [+0.0] when they are equal,
    negative when the cost is higher.  The rounding of the subtraction
    never hides the difference of two different prices. *)
Theorem profit_sign (i : PricingInput) (b : PricingBreakdown) :
  valid_input i = true -> pricing i = Ok b ->
  B64.is_finite (pre_gst_price b) = true ->
  (B64.ltb (cost_price i) (final_price b) = true ->
   B64.ltb B64.pzero (profit b) = true) /\
  (B64.eqb (cost_price i) (final_price b) = true ->
   profit b = B64.pzero) /\
  (B64.ltb (final_price b) (cost_price i) = true ->
   B64.ltb (profit b) B64.pzero = true).
Proof.
  intros Hv Hb Hf.
  destruct (pricing_inv i b Hb)
    as [Edf Esf Ess Erate Epre Eda Epad Ega Efin Eprofit Emargin].
  rewrite Eprofit.
  destruct (final_price_shape i b Hv Hb Hf) as [->|Hfin];
    destruct (cost_price_shape i Hv) as [Hc|Hc].
  - destruct (cost_price i) as [s|s| |s m e]; try discriminate.
    repeat split; intros H; try discriminate H; reflexivity.
  - destruct (B64Facts.pos_finite_inv _ Hc) as (m & e & -> & _).
    repeat split; intros H; try discriminate H; reflexivity.
  - destruct (cost_price i) as [s|s| |s m e]; try discriminate.
    destruct (B64Facts.pos_finite_inv _ Hfin) as (mf & ef & -> & _).
    repeat split; intros H; try discriminate H; reflexivity.
  - pose proof (B64Facts.pos_finite_good _ Hc) as Hgc.
    pose proof (B64Facts.pos_finite_good _ Hfin) as Hgf.
    destruct (B64Order.sub_sign (final_price b) (cost_price i) Hfin Hc)
      as (Hpos & Hzero & Hneg).
    unfold B64.ltb, B64.eqb, SFeqb.
    rewrite (B64Facts.SFltb_ord _ _ Hgc Hgf), (B64Facts.SFltb_ord _ _ Hgf Hgc),
      (B64Facts.SFcompare_ord _ _ Hgc Hgf).
    repeat split; intros H.
    + apply Z.ltb_lt in H. specialize (Hpos H).
      destruct (B64Facts.pos_finite_inv _ Hpos) as (m & e & -> & _). reflexivity.
    + destruct (Z.compare_spec (B64.ord (cost_price i)) (B64.ord (final_price b)))
        as [Heq| |]; try discriminate H.
      exact (Hzero Heq).
    + apply Z.ltb_lt in H. specialize (Hneg H).
      destruct (B64.sub (final_price b) (cost_price i)) as [s|s| |[] m e];
        try discriminate Hneg; reflexivity.
Qed.

Lemma profit_sign_witness :
  exists b,
    pricing scenario_electronics = Ok b /\
    B64.ltb B64.pzero (profit b) = true.
Proof.
  eexists. split; [vm_compute; reflexivity|].
  apply (proj1 (profit_sign scenario_electronics _
                  ltac:(vm_compute; reflexivity) ltac:(vm_compute; reflexivity)
                  ltac:(vm_compute; reflexivity))).
  vm_compute. reflexivity.
Defined.

(** ** No overflow below [1e308] *)

Lemma good_is_finite (x : float) :
  B64.good x = true -> B64.ord x < B64.ord_inf -> B64.is_finite x = true.
Proof.
  unfold B64.good. intros H Ho. apply andb_true_iff in H as [Hn _].
  destruct x as [[]|[]| |[] m e]; try discriminate; try reflexivity;
    cbn [B64.ord] in Ho; lia.
Qed.

Lemma pre_gst_price_le_bound (p : float) (d s : Z) (on : bool) :
  B64.pos_finite p = true -> B64.ord p <= B64.ord price_bound ->
  0 <= d <= 100 -> 0 <= s <= 100 ->
  B64.ord (pre_gst_price_of p d s on) <= B64.ord pre_gst_price_bound.
Proof.
  intros Hp Hb Hd Hs.
  destruct (demand_factor_facts d Hd) as (Hdf & _ & _ & Hdhi).
  destruct (stock_factor_facts s Hs) as (Hsf & _ & _ & Hshi).
  destruct (seasonal_factor_facts on) as (Hss & _ & _ & Hsshi).
  pose proof (B64Facts.pos_finite_good _ Hp) as Hgp.
  assert (Hgb : B64.good price_bound = true) by (vm_compute; reflexivity).
  assert (H12 : B64.pos_finite (B64.lit 12 1) = true) by (vm_compute; reflexivity).
  assert (H1 : B64.pos_finite (B64.of_int 1) = true) by (vm_compute; reflexivity).
  assert (H11 : B64.pos_finite (B64.lit 11 1) = true) by (vm_compute; reflexivity).
  pose proof (B64Facts.mul_good _ _ Hgp Hdf) as Ga.
  pose proof (B64Facts.mul_good _ _ Hgb H12) as Ga'.
  pose proof (B64Facts.mul_good _ _ Ga Hsf) as Gb.
  pose proof (B64Facts.mul_good _ _ Ga' H1) as Gb'.
  unfold pre_gst_price_of, pre_gst_price_bound.
  refine (mul_mono _ _ _ _ Gb Gb' Hss H11 _ Hsshi).
  refine (mul_mono _ _ _ _ Ga Ga' Hsf H1 _ Hshi).
  exact (mul_mono _ _ _ _ Hgp Hgb Hdf H12 Hb Hdhi).
Qed.

Lemma gst_rate_le_28 (c : string) (r : float) :
  dict_get gst_rates c = Ok r -> B64.ord r <= B64.ord (B64.lit 28 2).
Proof.
  intros H. apply dict_get_In in H.
  assert (Hall : forallb rate_at_most_28 (map snd gst_rates) = true)
    by (vm_compute; reflexivity).
  rewrite forallb_forall in Hall. apply Z.leb_le. exact (Hall r H).
Qed.

(** X7.  For a valid input with a competitor price of at most [1e308]
    no step of the calculation overflows: the pre-discount price, the
    discount amount, the price after discount, the tax amount, the final
    price and the profit are all finite numbers, neither infinite nor
    NaN. *)
Theorem no_overflow (i : PricingInput) (b : PricingBreakdown) :
  valid_input i = true -> pricing i = Ok b ->
  B64.leb (competitor_price i) price_bound = true ->
  B64.is_finite (pre_gst_price b) = true /\
  B64.is_finite (discount_amount b) = true /\
  B64.is_finite (price_after_discount b) = true /\
  B64.is_finite (gst_amount b) = true /\
  B64.is_finite (final_price b) = true /\
  B64.is_finite (profit b) = true.
Proof.
  intros Hv Hb Hle.
  destruct (valid_input_inv i Hv) as (Hp & _ & Hd & Hs & _).
  assert (Hgb : B64.good price_bound = true) by (vm_compute; reflexivity).
  unfold B64.leb in Hle.
  rewrite (B64Facts.SFleb_ord _ _ (B64Facts.pos_finite_good _ Hp) Hgb) in Hle.
  apply Z.leb_le in Hle.
  pose proof (pre_gst_price_le_bound _ (demand i) (stock i) (seasonal i)
                Hp Hle Hd Hs) as Hbound.
  rewrite <- (pricing_pre i b Hb) in Hbound.
  assert (Hbfin : B64.ord pre_gst_price_bound < B64.ord_inf)
    by (vm_compute; reflexivity).
  destruct (pre_gst_price_good _ (demand i) (stock i) (seasonal i) Hp Hd Hs)
    as [Hg _].
  rewrite <- (pricing_pre i b Hb) in Hg.
  assert (Hf : B64.is_finite (pre_gst_price b) = true)
    by (apply good_is_finite; [exact Hg|lia]).
  destruct (discount_and_tax i b Hv Hb Hf) as (Hpre & Hpad & [Hgda Hoda] & Hgga).
  destruct (pricing_inv i b Hb)
    as [Edf Esf Ess Erate Epre Eda Epad Ega Efin Eprofit Emargin].
  pose proof (pos_finite_ord _ Hpre) as [_ Hopre].
  pose proof (pos_finite_ord _ Hpad) as [Hopad Hopad'].
  assert (Hpadle : B64.ord (price_after_discount b) <= B64.ord pre_gst_price_bound).
  { apply Z.le_trans with (2 := Hbound). rewrite Epad.
    apply B64Order.sub_le; assumption. }
  assert (Hgbnd : B64.pos_finite pre_gst_price_bound = true)
    by (vm_compute; reflexivity).
  assert (H28 : B64.pos_finite (B64.lit 28 2) = true) by (vm_compute; reflexivity).
  assert (Hgale : B64.ord (gst_amount b)
                  <= B64.ord (B64.mul pre_gst_price_bound (B64.lit 28 2))).
  { rewrite Ega. destruct (gst_rate_facts _ _ Erate) as [->|Hr].
    - rewrite (mul_pos_finite_pzero _ Hpad). vm_compute. discriminate.
    - apply mul_mono; try assumption;
        try (apply B64Facts.pos_finite_good; assumption).
      exact (gst_rate_le_28 _ _ Erate). }
  assert (HG : B64.pos_finite (B64.mul pre_gst_price_bound (B64.lit 28 2)) = true)
    by (vm_compute; reflexivity).
  assert (Hgafin : B64.is_finite (gst_amount b) = true).
  { apply good_is_finite; [exact Hgga|].
    pose proof (pos_finite_ord _ HG). lia. }
  assert (Hfinal : B64.pos_finite (final_price b) = true).
  { destruct (B64Facts.add_pos _ _ Hpad Hgga) as [Hgf Hof].
    rewrite <- Efin in Hgf, Hof.
    apply B64Facts.good_pos_finite; [exact Hgf|]. split; [exact Hof|].
    assert (Hshape : gst_amount b = B64.pzero
                     \/ B64.pos_finite (gst_amount b) = true).
    { clear - Hgga Hgafin. unfold B64.good in Hgga.
      apply andb_true_iff in Hgga as [Hn Hval].
      destruct (gst_amount b) as [[]|[]| |[] m e]; try discriminate; auto. }
    rewrite Efin. destruct Hshape as [->|Hga].
    - destruct (B64Facts.pos_finite_inv _ Hpad) as (m & e & Em & Hvm).
      rewrite Em in *. exact Hopad'.
    - apply Z.le_lt_trans with (B64.ord final_price_bound);
        [|vm_compute; reflexivity].
      unfold final_price_bound. apply B64Order.add_mono; assumption. }
  repeat split;
    try (apply good_is_finite; [assumption|lia]);
    try assumption.
  - destruct (B64Facts.pos_finite_inv _ Hpad) as (m & e & -> & _). reflexivity.
  - destruct (B64Facts.pos_finite_inv _ Hfinal) as (m & e & -> & _). reflexivity.
  - rewrite Eprofit. destruct (cost_price_shape i Hv) as [Hc|Hc].
    + destruct (cost_price i) as [s|s| |s m e]; try discriminate Hc.
      destruct (B64Facts.pos_finite_inv _ Hfinal) as (mf & ef & -> & _).
      reflexivity.
    + destruct (B64Order.sub_sign (final_price b) (cost_price i) Hfinal Hc)
        as (Hpos & Hzero & Hneg).
      destruct (Z.lt_trichotomy (B64.ord (cost_price i)) (B64.ord (final_price b)))
        as [H|[H|H]].
      * specialize (Hpos H).
        destruct (B64Facts.pos_finite_inv _ Hpos) as (m & e & -> & _). reflexivity.
      * rewrite (Hzero H). reflexivity.
      * specialize (Hneg H).
        destruct (B64.sub (final_price b) (cost_price i)) as [s|s| |[] m e];
          try discriminate Hneg; reflexivity.
Qed.

Lemma no_overflow_witness :
  exists b,
    pricing scenario_electronics = Ok b /\
    B64.is_finite (pre_gst_price b) = true /\
    B64.is_finite (discount_amount b) = true /\
    B64.is_finite (price_after_discount b) = true /\
    B64.is_finite (gst_amount b) = true /\
    B64.is_finite (final_price b) = true /\
    B64.is_finite (profit b) = true.
Proof.
  eexists. split; [vm_compute; reflexivity|].
  apply (no_overflow scenario_electronics); vm_compute; reflexivity.
Defined.

(** ** The history over a session *)

Lemma saved_entry_length (st st' : SessionState) (w : Widgets)
      (b : PricingBreakdown) :
  script_run st w = Ok (st', b) ->
  List.length (saved_entry w) = if ui_save w then 1%nat else 0%nat.
Proof.
  intros H. destruct (script_run_history _ _ _ _ H) as [Hb _].
  unfold saved_entry. rewrite Hb. destruct (ui_save w); reflexivity.
Qed.

Lemma saved_rows_length (ws : list Widgets) :
  forall st st',
    script_runs st ws = Ok st' ->
    List.length (flat_map saved_entry ws) = saves ws.
Proof.
  unfold saves.
  induction ws as [|w ws IH]; intros st st'; cbn [script_runs flat_map filter].
  - reflexivity.
  - destruct (script_run st w) as [[st1 b]|e] eqn:Hrun; cbn [bind fst];
      [|discriminate].
    intros H. rewrite length_app, (IH _ _ H), (saved_entry_length _ _ _ _ Hrun).
    destruct (ui_save w); reflexivity.
Qed.

(** X8.  Over any runs of a session that end without an exception the
    history grows by exactly one row per run that pressed the save button
    and by none otherwise; the history table of line 115 is shown exactly
    when it was already shown or one of the runs saved, so a new session
    shows it from the first save on. *)
Theorem history_grows (st st' : SessionState) (ws : list Widgets) :
  script_runs st ws = Ok st' ->
  List.length (ledger_all st')
    = (List.length (ledger_all st) + saves ws)%nat /\
  shows_history st' = shows_history st || existsb ui_save ws.
Proof.
  intros H.
  pose proof (script_runs_history ws st st' H) as Hl.
  pose proof (saved_rows_length ws st st' H) as Hn.
  split.
  - rewrite Hl, length_app, Hn. reflexivity.
  - assert (Hex : existsb ui_save ws = negb (Nat.eqb (saves ws) 0)).
    { unfold saves. clear. induction ws as [|w ws IH]; [reflexivity|].
      cbn [existsb filter]. destruct (ui_save w); [reflexivity|exact IH]. }
    unfold shows_history. rewrite Hl, Hex, <- Hn.
    destruct (ledger_all st) as [|e l]; [|reflexivity].
    cbn [app orb]. destruct (flat_map saved_entry ws); reflexivity.
Qed.

Lemma history_grows_witness :
  exists st',
    script_runs new_session [lamp_widgets; clearance_widgets; watch_widgets]
      = Ok st' /\
    List.length (ledger_all st') = 2%nat /\
    shows_history st' = true.
Proof.
  eexists. split; [vm_compute; reflexivity|].
  match goal with
  | |- List.length (ledger_all ?s) = _ /\ _ =>
      destruct (history_grows new_session s
                  [lamp_widgets; clearance_widgets; watch_widgets]
                  ltac:(vm_compute; reflexivity)) as [H1 H2]
  end.
  split; [exact H1|exact H2].
Defined.

(** ** Identities of the breakdown *)

(** A number equals itself; a NaN does not. *)
Lemma eqb_refl (x : float) : B64.is_nan x = false -> B64.eqb x x = true.
Proof.
  unfold B64.eqb, SFeqb.
  destruct x as [s|[]| |[] m e]; try discriminate; intros _; cbn [SFcompare];
    try reflexivity;
    rewrite Z.compare_refl, Pos.compare_cont_refl; reflexivity.
Qed.




